(** * unifi_protect_backup.uploader: the VideoUploader loop

    A shallow embedding of [src/unifi_protect_backup/uploader.py] and the
    properties its specification states about it.

    Conventions.
    - A Python [str] is the list of its Unicode code points ([N]); a Python
      [bytes] is a [list byte].
    - A raised exception is the [Error] case of [result]; the exceptions are
      the subclasses of [Exception] (task cancellation and interpreter exit
      are outside the model, as they are outside the specification).
    - A [datetime] is an instant counted in microseconds since the epoch. A
      float the code derives from datetimes ([timestamp()],
      [total_seconds()]) is the double nearest to that count divided by
      10**6; it is carried as the count, and its text is the runtime's.
    - What the collaborators do (the queue, the camera-name lookup, the rclone
      process, the SQLite engine) is given per loop iteration by a
      [Delivery]; what the Python runtime does beyond the fragment defined
      here is given by a [Runtime]. *)

From Stdlib Require Import List ZArith NArith Lia Bool DecimalString.
From Stdlib.Strings Require Import Ascii String Byte.
Import ListNotations.

Local Open Scope N_scope.

(** ** Strings *)

Definition codepoint := N.
Definition str := list codepoint.

(** An ASCII literal as a [str]. *)
Definition lit (s : string) : str :=
  map N_of_ascii (list_ascii_of_string s).

Definition str_eqb (a b : str) : bool :=
  if list_eq_dec N.eq_dec a b then true else false.

(** [sep.join(parts)] *)
Fixpoint join (sep : str) (parts : list str) : str :=
  match parts with
  | [] => []
  | [p] => p
  | p :: ps => p ++ sep ++ join sep ps
  end.

(** [s.split(sep)] for a one-character separator: the pieces between the
    occurrences of [sep], always at least one piece. *)
Fixpoint split (sep : codepoint) (s : str) : list str :=
  match s with
  | [] => [[]]
  | c :: s' =>
      if c =? sep then [] :: split sep s'
      else match split sep s' with
           | [] => [[c]]
           | w :: ws => (c :: w) :: ws
           end
  end.

(** Decimal rendering of a natural number, as in [f"{n}"]. *)
Definition str_of_N (n : N) : str :=
  lit (NilEmpty.string_of_uint (N.to_uint n)).

(** ** Exceptions and results *)

(** Modelled from the spec: [SubprocessException], declared in
    [unifi_protect_backup.utils], carries the captured standard-output text,
    the standard-error text and the exit code. The other constructors are
    Python's builtin exceptions, and [OtherException] stands for the
    exceptions of the collaborators (asyncio, sqlite3, the API client),
    named by their class. *)
Inductive exn :=
| AssertionError
| KeyError (key : str)
| IndexError
| AttributeError (name : str)
| TypeError
| ValueError (msg : str)
| UnicodeDecodeError
| UnboundLocalError (name : str)
| SubprocessException (stdout stderr : str) (returncode : Z)
| OtherException (name : str).

Inductive result (A : Type) :=
| Ok (a : A)
| Error (e : exn).
Arguments Ok {A} a.
Arguments Error {A} e.

Definition bind {A B} (r : result A) (k : A -> result B) : result B :=
  match r with
  | Ok a => k a
  | Error e => Error e
  end.

Notation "x <- r ;; k" := (bind r (fun x => k))
  (at level 100, r at next level, right associativity).

Definition is_ok {A} (r : result A) : bool :=
  match r with Ok _ => true | Error _ => false end.

(** ** [bytes.decode()]: strict UTF-8 *)

Definition bytes := list byte.

Definition cont (b : N) : bool := (0x80 <=? b) && (b <=? 0xBF).
Definition within (lo hi b : N) : bool := (lo <=? b) && (b <=? hi).
Definition low6 (b : N) : N := N.land b 0x3F.

Fixpoint utf8_decode (bs : list N) : option str :=
  match bs with
  | [] => Some []
  | b0 :: r0 =>
      if b0 <? 0x80 then option_map (cons b0) (utf8_decode r0)
      else if within 0xC2 0xDF b0 then
        match r0 with
        | b1 :: r1 =>
            if cont b1
            then option_map (cons (N.shiftl (N.land b0 0x1F) 6 + low6 b1))
                            (utf8_decode r1)
            else None
        | _ => None
        end
      else if within 0xE0 0xEF b0 then
        match r0 with
        | b1 :: b2 :: r2 =>
            if within (if b0 =? 0xE0 then 0xA0 else 0x80)
                      (if b0 =? 0xED then 0x9F else 0xBF) b1 && cont b2
            then option_map
                   (cons (N.shiftl (N.land b0 0x0F) 12
                          + N.shiftl (low6 b1) 6 + low6 b2))
                   (utf8_decode r2)
            else None
        | _ => None
        end
      else if within 0xF0 0xF4 b0 then
        match r0 with
        | b1 :: b2 :: b3 :: r3 =>
            if within (if b0 =? 0xF0 then 0x90 else 0x80)
                      (if b0 =? 0xF4 then 0x8F else 0xBF) b1
               && cont b2 && cont b3
            then option_map
                   (cons (N.shiftl (N.land b0 0x07) 18
                          + N.shiftl (low6 b1) 12
                          + N.shiftl (low6 b2) 6 + low6 b3))
                   (utf8_decode r3)
            else None
        | _ => None
        end
      else None
  end.

(** [b.decode()] *)
Definition decode (b : bytes) : result str :=
  match utf8_decode (map Byte.to_N b) with
  | Some s => Ok s
  | None => Error UnicodeDecodeError
  end.

(** The bytes of an ASCII literal. *)
Definition blit (s : string) : bytes := list_byte_of_string s.

(** ** [pathlib.Path] on a POSIX host

    A pure path is its root ([""], ["/"] or ["//"]) and its components;
    building one from a string drops empty and ["."] components. *)

Record Path := mkPath { path_root : str; path_parts : list str }.

Definition slash : codepoint := 47.

Fixpoint lstrip_slashes (s : str) : str :=
  match s with
  | c :: s' => if c =? slash then lstrip_slashes s' else s
  | [] => []
  end.

Definition splitroot (s : str) : str * str :=
  match s with
  | c :: _ =>
      if c =? slash then
        let rel := lstrip_slashes s in
        if (List.length s - List.length rel =? 2)%nat
        then ([slash; slash], rel)
        else ([slash], rel)
      else ([], s)
  | [] => ([], [])
  end.

Definition is_component (x : str) : bool :=
  negb (str_eqb x []) && negb (str_eqb x (lit ".")).

Definition Path_of (s : str) : Path :=
  let '(root, rel) := splitroot s in
  mkPath root (filter is_component (split slash rel)).

(** [str(path)] *)
Definition Path_str (p : Path) : str :=
  match path_root p ++ join [slash] (path_parts p) with
  | [] => lit "."
  | s => s
  end.

(** ** Events and the values a template can reach *)

Definition datetime := Z.

(** The [Event] of pyunifiprotect, with the attributes the uploader reads.
    For the three attributes the uploader asserts the type of, [None] stands
    for a value of another type. *)
Record Event := mkEvent {
  event_id : str;
  event_type : str;
  event_camera_id : option str;
  event_start : option datetime;
  event_end : option datetime;
  event_smart_detect_types : list str
}.

Inductive value :=
| VStr (s : str)
| VFloat (micros : Z)
| VDatetime (t : datetime)
| VList (l : list str)
| VNone
| VEvent (e : Event)
| VObject (handle : N).

(** What the Python runtime does outside the fragment defined in this file:
    the Unicode tables above U+00FF (resp. U+007F for decimal digits),
    attributes and items of objects other than the modelled attributes of an
    [Event], [repr]/[ascii]/[str] of objects, the format mini-language of
    the builtin types, and [float_str micros], the text an f-string gives
    for the float nearest to [micros / 10**6]. *)
Record Runtime := {
  unicode_alnum : codepoint -> bool;
  unicode_decimal : codepoint -> option N;
  getattr_other : value -> str -> result value;
  getitem : value -> str -> result value;
  convert : codepoint -> value -> result value;
  format_builtin : value -> str -> result str;
  float_str : Z -> str
}.

Definition of_option (o : option value) : value :=
  match o with Some v => v | None => VNone end.

(** [getattr(obj, name)] *)
Definition getattr (rt : Runtime) (obj : value) (name : str) : result value :=
  match obj with
  | VEvent e =>
      if str_eqb name (lit "id") then Ok (VStr (event_id e))
      else if str_eqb name (lit "type") then Ok (VStr (event_type e))
      else if str_eqb name (lit "camera_id")
      then Ok (of_option (option_map VStr (event_camera_id e)))
      else if str_eqb name (lit "start")
      then Ok (of_option (option_map VDatetime (event_start e)))
      else if str_eqb name (lit "end")
      then Ok (of_option (option_map VDatetime (event_end e)))
      else if str_eqb name (lit "smart_detect_types")
      then Ok (VList (event_smart_detect_types e))
      else getattr_other rt obj name
  | _ => getattr_other rt obj name
  end.

(** ** [str.format] with keyword arguments

    The replacement-field grammar of CPython's [str.format]: the template is
    cut into literal text and fields ([markup]), each field name into a first
    name and a chain of [.attr] and [[key]] accessors, the first name is
    looked up in the keyword arguments (there are no positional ones), then
    converted ([!r], [!s], [!a]) and formatted with its specification, which
    may itself contain fields, one level deep. Errors are raised in the order
    the template is read. *)

Inductive token :=
| TLiteral (text : str)
| TField (field_name : str) (conversion : option codepoint)
         (format_spec : str) (needs_expanding : bool)
| TError (e : exn).

Inductive mstate :=
| MText (acc : str)
| MBrace (acc : str) (b : codepoint)
| MName (name : str) (bracket : bool)
| MConv (name : str)
| MConvEnd (name : str) (conv : codepoint)
| MSpec (name : str) (conv : option codepoint) (spec : str)
        (count : nat) (expand : bool).

Definition lbrace : codepoint := 123.
Definition rbrace : codepoint := 125.
Definition lbracket : codepoint := 91.
Definition rbracket : codepoint := 93.
Definition colon : codepoint := 58.
Definition bang : codepoint := 33.
Definition dot : codepoint := 46.

Definition name_step (name : str) (bracket : bool) (c : codepoint)
  : list token * option mstate :=
  if bracket then ([], Some (MName (name ++ [c]) (negb (c =? rbracket))))
  else if c =? lbrace
  then ([TError (ValueError (lit "unexpected '{' in field name"))], None)
  else if c =? lbracket then ([], Some (MName (name ++ [c]) true))
  else if c =? rbrace then ([TField name None [] false], Some (MText []))
  else if c =? colon then ([], Some (MSpec name None [] 1 false))
  else if c =? bang then ([], Some (MConv name))
  else ([], Some (MName (name ++ [c]) false)).

Definition mstep (st : mstate) (c : codepoint) : list token * option mstate :=
  match st with
  | MText acc =>
      if (c =? lbrace) || (c =? rbrace) then ([], Some (MBrace acc c))
      else ([], Some (MText (acc ++ [c])))
  | MBrace acc b =>
      if c =? b then ([TLiteral (acc ++ [b])], Some (MText []))
      else if b =? rbrace
      then ([TError (ValueError
                       (lit "Single '}' encountered in format string"))], None)
      else let '(out, next) := name_step [] false c in
           (TLiteral acc :: out, next)
  | MName name bracket => name_step name bracket c
  | MConv name => ([], Some (MConvEnd name c))
  | MConvEnd name conv =>
      if c =? rbrace then ([TField name (Some conv) [] false], Some (MText []))
      else if c =? colon then ([], Some (MSpec name (Some conv) [] 1 false))
      else ([TError (ValueError
                       (lit "expected ':' after conversion specifier"))], None)
  | MSpec name conv spec count expand =>
      if c =? lbrace
      then ([], Some (MSpec name conv (spec ++ [c]) (S count) true))
      else if c =? rbrace then
        match count with
        | 1%nat => ([TField name conv spec expand], Some (MText []))
        | _ => ([], Some (MSpec name conv (spec ++ [c]) (pred count) expand))
        end
      else ([], Some (MSpec name conv (spec ++ [c]) count expand))
  end.

Definition mfinish (st : mstate) : list token :=
  match st with
  | MText [] => []
  | MText acc => [TLiteral acc]
  | MBrace _ b =>
      if b =? rbrace
      then [TError (ValueError (lit "Single '}' encountered in format string"))]
      else [TError (ValueError (lit "Single '{' encountered in format string"))]
  | MName _ _ =>
      [TError (ValueError (lit "expected '}' before end of string"))]
  | MConv _ =>
      [TError (ValueError
                 (lit "end of string while looking for conversion specifier"))]
  | MConvEnd _ _ | MSpec _ _ _ _ _ =>
      [TError (ValueError (lit "unmatched '{' in format spec"))]
  end.

Fixpoint markup (st : mstate) (s : str) : list token :=
  match s with
  | [] => mfinish st
  | c :: s' =>
      let '(out, next) := mstep st c in
      out ++ match next with
             | Some st' => markup st' s'
             | None => []
             end
  end.

(** The first name of a field: everything before the first ['.'] or ['[']. *)
Fixpoint field_name_split (s : str) : str * str :=
  match s with
  | [] => ([], [])
  | c :: s' =>
      if (c =? dot) || (c =? lbracket) then ([], s)
      else let '(first, rest) := field_name_split s' in (c :: first, rest)
  end.

Definition PY_SSIZE_T_MAX : N := 2 ^ 63 - 1.

Definition todecimal (rt : Runtime) (c : codepoint) : option N :=
  if within 48 57 c then Some (c - 48)
  else if c <? 128 then None
  else unicode_decimal rt c.

Fixpoint get_integer_from (rt : Runtime) (acc : N) (s : str)
  : result (option N) :=
  match s with
  | [] => Ok (Some acc)
  | c :: s' =>
      match todecimal rt c with
      | None => Ok None
      | Some d =>
          if (PY_SSIZE_T_MAX - d) / 10 <? acc
          then Error (ValueError
                        (lit "Too many decimal digits in format string"))
          else get_integer_from rt (acc * 10 + d) s'
      end
  end.

(** [Some n] when the text is a decimal index, [None] when it is a key. *)
Definition get_integer (rt : Runtime) (s : str) : result (option N) :=
  match s with
  | [] => Ok None
  | _ => get_integer_from rt 0 s
  end.

Inductive accessor :=
| Attribute (name : str)
| Item (key : str)
| BadAccessor (e : exn).

Inductive astate :=
| AStart
| InAttr (acc : str)
| InItem (acc : str).

Definition empty_attribute : exn :=
  ValueError (lit "Empty attribute in format string").

Definition attribute (name : str) : accessor :=
  match name with
  | [] => BadAccessor empty_attribute
  | _ => Attribute name
  end.

Definition item (rt : Runtime) (key : str) : accessor :=
  match get_integer rt key with
  | Error e => BadAccessor e
  | Ok _ => match key with
            | [] => BadAccessor empty_attribute
            | _ => Item key
            end
  end.

Fixpoint accessors (rt : Runtime) (st : astate) (s : str) : list accessor :=
  match s, st with
  | [], AStart => []
  | [], InAttr acc => [attribute acc]
  | [], InItem _ =>
      [BadAccessor (ValueError (lit "Missing ']' in format string"))]
  | c :: s', AStart =>
      if c =? dot then accessors rt (InAttr []) s'
      else if c =? lbracket then accessors rt (InItem []) s'
      else [BadAccessor
              (ValueError
                 (lit "Only '.' or '[' may follow ']' in format field specifier"))]
  | c :: s', InAttr acc =>
      if c =? dot then
        match acc with
        | [] => [BadAccessor empty_attribute]
        | _ => Attribute acc :: accessors rt (InAttr []) s'
        end
      else if c =? lbracket then
        match acc with
        | [] => [BadAccessor empty_attribute]
        | _ => Attribute acc :: accessors rt (InItem []) s'
        end
      else accessors rt (InAttr (acc ++ [c])) s'
  | c :: s', InItem acc =>
      if c =? rbracket then
        match item rt acc with
        | BadAccessor e => [BadAccessor e]
        | a => a :: accessors rt AStart s'
        end
      else accessors rt (InItem (acc ++ [c])) s'
  end.

Fixpoint walk (rt : Runtime) (obj : value) (path : list accessor)
  : result value :=
  match path with
  | [] => Ok obj
  | Attribute name :: path' => v <- getattr rt obj name;; walk rt v path'
  | Item key :: path' => v <- getitem rt obj key;; walk rt v path'
  | BadAccessor e :: _ => Error e
  end.

Definition kwargs := list (str * value).

Fixpoint lookup (key : str) (kw : kwargs) : option value :=
  match kw with
  | [] => None
  | (k, v) :: kw' => if str_eqb key k then Some v else lookup key kw'
  end.

(** With no positional arguments, a field whose first name is empty or a
    decimal index raises [IndexError]; any other first name is a key of the
    keyword arguments. *)
Definition get_field_object (rt : Runtime) (kw : kwargs) (field_name : str)
  : result value :=
  let '(first, rest) := field_name_split field_name in
  idx <- get_integer rt first;;
  obj <- match idx, first with
         | Some _, _ | None, [] => Error IndexError
         | None, _ => match lookup first kw with
                      | Some v => Ok v
                      | None => Error (KeyError first)
                      end
         end;;
  walk rt obj (accessors rt AStart rest).

Definition do_conversion (rt : Runtime) (conv : codepoint) (obj : value)
  : result value :=
  if (conv =? 114) || (conv =? 115) || (conv =? 97) then
    match obj with
    | VStr s => if conv =? 115 then Ok (VStr s) else convert rt conv obj
    | _ => convert rt conv obj
    end
  else Error (ValueError (lit "Unknown conversion specifier")).

(** [format(obj, spec)] *)
Definition render_field (rt : Runtime) (obj : value) (spec : str)
  : result str :=
  match obj, spec with
  | VStr s, [] => Ok s
  | _, _ => format_builtin rt obj spec
  end.

Definition output_markup (rt : Runtime) (kw : kwargs)
  (expand : str -> result str)
  (field_name : str) (conversion : option codepoint)
  (format_spec : str) (needs_expanding : bool) : result str :=
  obj <- get_field_object rt kw field_name;;
  obj <- match conversion with
         | None => Ok obj
         | Some c => do_conversion rt c obj
         end;;
  spec <- (if needs_expanding then expand format_spec else Ok format_spec);;
  render_field rt obj spec.

Fixpoint do_markup (rt : Runtime) (kw : kwargs) (expand : str -> result str)
  (toks : list token) : result str :=
  match toks with
  | [] => Ok []
  | TLiteral text :: toks' =>
      rest <- do_markup rt kw expand toks';; Ok (text ++ rest)
  | TField name conv spec needs :: toks' =>
      out <- output_markup rt kw expand name conv spec needs;;
      rest <- do_markup rt kw expand toks';;
      Ok (out ++ rest)
  | TError e :: _ => Error e
  end.

Fixpoint build_string (rt : Runtime) (kw : kwargs) (recursion_depth : nat)
  (input : str) : result str :=
  match recursion_depth with
  | O => Error (ValueError (lit "Max string recursion exceeded"))
  | S d => do_markup rt kw (build_string rt kw d) (markup (MText []) input)
  end.

(** [template.format] applied to the keyword arguments [kw] *)
Definition format (rt : Runtime) (template : str) (kw : kwargs) : result str :=
  build_string rt kw 2 template.

(** ** The sanitising substitution

    [re.sub(r'[^\w\-_\.\(\)/ ]', '', file_path)]: every character of the
    negated class is replaced by the empty string. [\w] on a [str] pattern is
    the Unicode word class: a code point that [str.isalnum] accepts, or the
    underscore. Its members below U+0100 are listed; above, the runtime's
    table decides. *)

Definition latin1_word (c : codepoint) : bool :=
  within 48 57 c || within 65 90 c || (c =? 95) || within 97 122 c
  || (c =? 0xAA) || within 0xB2 0xB3 c || (c =? 0xB5) || within 0xB9 0xBA c
  || within 0xBC 0xBE c || within 0xC0 0xD6 c || within 0xD8 0xF6 c
  || within 0xF8 0xFF c.

Definition is_word (rt : Runtime) (c : codepoint) : bool :=
  if c <? 256 then latin1_word c else unicode_alnum rt c.

(** A character the pattern does not match, hence keeps:
    [\w], [-], [_], [.], [(], [)], [/] or space. *)
Definition valid_char (rt : Runtime) (c : codepoint) : bool :=
  is_word rt c || (c =? 45) || (c =? 95) || (c =? 46) || (c =? 40)
  || (c =? 41) || (c =? 47) || (c =? 32).

Definition sanitize (rt : Runtime) (file_path : str) : str :=
  filter (valid_char rt) file_path.

(** ** The uploader and its collaborators *)

(** The configuration a [VideoUploader] is built with; its [_protect],
    [_video_queue] and [_db] are the collaborators below. *)
Record VideoUploader := {
  _rclone_destination : str;
  _rclone_args : str;
  _file_structure_format : str
}.

(** A statement is the SQL text handed to [execute]. What rows the engine
    makes of a text that it accepts is the engine's. *)
Definition statement := str.

(** The aiosqlite connection: the statements it has committed, whose
    effects other readers of the database see, and the statements executed
    in its open transaction. The connection opens a transaction at the first
    INSERT and keeps it until [commit]; a statement that fails is undone
    alone. *)
Record Connection := {
  committed : list statement;
  pending : list statement
}.

Inductive Level := INFO | DEBUG | EXTRA_DEBUG | WARNING.

Inductive LogRecord :=
| Log (level : Level) (msg : str)
| LogException (e : exn).

(** The API client, as far as the uploader uses it: the display names it
    resolves camera identifiers to. *)
Definition ProtectApiClient := str -> result str.

(** Modelled from the spec: [get_camera_name] of [unifi_protect_backup.utils]
    is the lookup from camera identifier to display name on the API client;
    it may fail. *)
Definition get_camera_name (protect : ProtectApiClient) (camera_id : str)
  : result str :=
  protect camera_id.

(** Modelled from the spec: the [VideoQueue] of
    [unifi_protect_backup.utils] has a dequeue operation that yields an
    (event, video) pair and a synchronous size query.

    A [Delivery] is what the collaborators do during one iteration of the
    loop: what [VideoQueue.get] yields (or raises), the queue size it
    reports, the state of the API client, how the rclone process ends (its
    captured standard output and error and its return code, or the exception
    spawning it raises), and the error, if any, the SQLite engine raises on
    each of the three database calls. *)
Record Delivery := {
  dequeued : result (Event * bytes);
  qsize_files : N;
  protect : ProtectApiClient;
  rclone : result (bytes * bytes * Z);
  insert_event_fault : option exn;
  insert_backup_fault : option exn;
  commit_fault : option exn
}.

(** The state [start] runs on: the database connection, the log, the
    processes spawned so far (command line and standard input), and the local
    variable [event] of [start], unbound until first assigned. *)
Record State := mkState {
  db : Connection;
  log : list LogRecord;
  spawned : list (str * bytes);
  event : option Event
}.

Definition M (A : Type) : Type := State -> State * result A.

Definition ret {A} (a : A) : M A := fun st => (st, Ok a).
Definition raise {A} (e : exn) : M A := fun st => (st, Error e).
Definition lift {A} (r : result A) : M A := fun st => (st, r).

Definition bindM {A B} (m : M A) (k : A -> M B) : M B :=
  fun st =>
    match m st with
    | (st', Ok a) => k a st'
    | (st', Error e) => (st', Error e)
    end.

Notation "x <~ m ;; k" := (bindM m (fun x => k))
  (at level 100, m at next level, right associativity).
Notation "' p <~ m ;; k" := (bindM m (fun x => match x with p => k end))
  (at level 100, p pattern, m at next level, right associativity).
Notation "m ;;; k" := (bindM m (fun _ => k))
  (at level 100, right associativity).

Definition logger (level : Level) (msg : str) : M unit :=
  fun st => (mkState (db st) (log st ++ [Log level msg]) (spawned st) (event st),
             Ok tt).

Definition logger_exception (e : exn) : M unit :=
  fun st => (mkState (db st) (log st ++ [LogException e]) (spawned st) (event st),
             Ok tt).

Definition set_db (c : Connection) : M unit :=
  fun st => (mkState c (log st) (spawned st) (event st), Ok tt).

(** [await db.execute(sql)] *)
Definition execute (fault : option exn) (s : statement) : M unit :=
  fun st =>
    match fault with
    | Some e => (st, Error e)
    | None =>
        set_db {| committed := committed (db st);
                  pending := pending (db st) ++ [s] |} st
    end.

(** [await db.commit()] *)
Definition commit (fault : option exn) : M unit :=
  fun st =>
    match fault with
    | Some e => (st, Error e)
    | None =>
        set_db {| committed := committed (db st) ++ pending (db st);
                  pending := [] |} st
    end.

(** [asyncio.create_subprocess_shell(cmd, ...)] followed by
    [proc.communicate(video)]: when spawning raises, no process exists and
    nothing is written to a standard input. *)
Definition communicate (env : Delivery) (cmd : str) (video : bytes)
  : M (bytes * bytes * Z) :=
  fun st =>
    match rclone env with
    | Ok outcome =>
        (mkState (db st) (log st) (spawned st ++ [(cmd, video)]) (event st),
         Ok outcome)
    | Error e => (st, Error e)
    end.

Definition dquote : codepoint := 34.
Definition newline : codepoint := 10.

(** ** [VideoUploader._upload_video] *)

Definition _upload_video (env : Delivery) (video : bytes) (destination : Path)
  (rclone_args : str) : M unit :=
  let cmd := lit "rclone rcat -vv " ++ rclone_args ++ lit " " ++ [dquote]
             ++ Path_str destination ++ [dquote] in
  '(stdout, stderr, returncode) <~ communicate env cmd video;;
  if (returncode =? 0)%Z then
    out <~ lift (decode stdout);;
    logger EXTRA_DEBUG (lit "stdout:" ++ [newline] ++ out);;;
    err <~ lift (decode stderr);;
    logger EXTRA_DEBUG (lit "stderr:" ++ [newline] ++ err)
  else
    out <~ lift (decode stdout);;
    err <~ lift (decode stderr);;
    raise (SubprocessException out err returncode).

(** ** [VideoUploader._update_database] *)

(** [dt.timestamp()]; a value that is not a datetime has no such method. *)
Definition timestamp (dt : option datetime) : result Z :=
  match dt with
  | Some t => Ok t
  | None => Error (AttributeError (lit "timestamp"))
  end.

(** [f"{event.camera_id}"] *)
Definition camera_id_text (camera_id : option str) : str :=
  match camera_id with
  | Some s => s
  | None => lit "None"
  end.

(** [remote, file_path = parts] *)
Definition unpack2 (parts : list str) : result (str * str) :=
  match parts with
  | [a; b] => Ok (a, b)
  | [] | [_] =>
      Error (ValueError (lit "not enough values to unpack (expected 2)"))
  | _ => Error (ValueError (lit "too many values to unpack (expected 2)"))
  end.

(** The text of the first f-string: the five values between single quotes,
    in the layout of the source. *)
Definition insert_events (id type camera_id start_ts end_ts : str)
  : statement :=
  lit "INSERT INTO events VALUES" ++ [newline]
  ++ lit "                ('" ++ id ++ lit "', '" ++ type ++ lit "', '"
  ++ camera_id ++ lit "', '" ++ start_ts ++ lit "', '" ++ end_ts ++ lit "')"
  ++ [newline] ++ lit "            ".

(** The text of the second f-string. *)
Definition insert_backups (id remote file_path : str) : statement :=
  lit "INSERT INTO backups VALUES" ++ [newline]
  ++ lit "                ('" ++ id ++ lit "', '" ++ remote ++ lit "', '"
  ++ file_path ++ lit "')"
  ++ [newline] ++ lit "            ".

Definition _update_database (rt : Runtime) (env : Delivery) (ev : Event)
  (destination : Path) : M unit :=
  start_ts <~ lift (timestamp (event_start ev));;
  end_ts <~ lift (timestamp (event_end ev));;
  execute (insert_event_fault env)
    (insert_events (event_id ev) (event_type ev)
       (camera_id_text (event_camera_id ev))
       (float_str rt start_ts) (float_str rt end_ts));;;
  '(remote, file_path) <~ lift (unpack2 (split colon (Path_str destination)));;
  execute (insert_backup_fault env)
    (insert_backups (event_id ev) remote file_path);;;
  commit (commit_fault env).

(** ** [VideoUploader._generate_file_path] *)

(** [assert isinstance(x, T)] *)
Definition assert_isinstance {A} (x : option A) : result A :=
  match x with
  | Some a => Ok a
  | None => Error AssertionError
  end.

Definition detection_type (ev : Event) : str :=
  match event_smart_detect_types ev with
  | [] => event_type ev
  | labels => event_type ev ++ lit " (" ++ join (lit " ") labels ++ lit ")"
  end.

Definition format_context (ev : Event) (duration_seconds : Z)
  (camera_name : str) : kwargs :=
  [ (lit "event", VEvent ev);
    (lit "duration_seconds", VFloat duration_seconds);
    (lit "detection_type", VStr (detection_type ev));
    (lit "camera_name", VStr camera_name) ].

Definition _generate_file_path (rt : Runtime) (self : VideoUploader)
  (api : ProtectApiClient) (ev : Event) : result Path :=
  camera_id <- assert_isinstance (event_camera_id ev);;
  start_dt <- assert_isinstance (event_start ev);;
  end_dt <- assert_isinstance (event_end ev);;
  camera_name <- get_camera_name api camera_id;;
  let ctx := format_context ev (end_dt - start_dt)%Z camera_name in
  file_path <- format rt (_file_structure_format self) ctx;;
  let file_path := sanitize rt file_path in
  Ok (Path_of (_rclone_destination self ++ lit "/" ++ file_path)).

(** ** [VideoUploader.start] *)

(** [event, video = await self._video_queue.get()]: the assignment binds the
    local [event] only when the call returned. *)
Definition get (env : Delivery) : M (Event * bytes) :=
  fun st =>
    match dequeued env with
    | Ok (ev, video) =>
        (mkState (db st) (log st) (spawned st) (Some ev), Ok (ev, video))
    | Error e => (st, Error e)
    end.

(** The statements of the [try] block after the assignment. *)
Definition process (rt : Runtime) (self : VideoUploader) (env : Delivery)
  (ev : Event) (video : bytes) : M unit :=
  logger INFO (lit "Uploading event: " ++ event_id ev);;;
  logger DEBUG (lit " Remaining Upload Queue: " ++ str_of_N (qsize_files env));;;
  destination <~ lift (_generate_file_path rt self (protect env) ev);;
  logger DEBUG (lit " Destination: " ++ Path_str destination);;;
  _upload_video env video destination (_rclone_args self);;;
  _update_database rt env ev destination;;;
  logger DEBUG (lit "Uploaded").

Definition try_block (rt : Runtime) (self : VideoUploader) (env : Delivery)
  : M unit :=
  '(ev, video) <~ get env;;
  process rt self env ev video.

(** Reading the local variable [event] in the handler. *)
Definition local_event : M Event :=
  fun st =>
    match event st with
    | Some ev => (st, Ok ev)
    | None => (st, Error (UnboundLocalError (lit "event")))
    end.

Definition abandoning (id : str) : str :=
  lit "Unexpected exception occurred, abandoning event " ++ id ++ lit ":".

(** The [except Exception as e] block. *)
Definition handler (e : exn) : M unit :=
  ev <~ local_event;;
  logger WARNING (abandoning (event_id ev));;;
  logger_exception e.

(** One turn of [while True]: an [Error] is an exception leaving the loop. *)
Definition iteration (rt : Runtime) (self : VideoUploader) (env : Delivery)
  : M unit :=
  fun st =>
    match try_block rt self env st with
    | (st', Ok _) => (st', Ok tt)
    | (st', Error e) => handler e st'
    end.

(** The loop over the deliveries the queue makes; when they are used up the
    loop is suspended in [get]. *)
Fixpoint loop (rt : Runtime) (self : VideoUploader) (envs : list Delivery)
  : M unit :=
  match envs with
  | [] => ret tt
  | env :: envs' => iteration rt self env;;; loop rt self envs'
  end.

Definition start (rt : Runtime) (self : VideoUploader) (envs : list Delivery)
  : M unit :=
  logger INFO (lit "Starting Uploader");;;
  loop rt self envs.

Definition empty_db : Connection := {| committed := []; pending := [] |}.

(** The state [start] is entered in: nothing logged, nothing spawned, the
    local [event] unbound. *)
Definition initial (c : Connection) : State :=
  mkState c [] [] None.

(** * Vocabulary of the statements, and concrete runs *)

Fixpoint rstrip_zeros (s : str) : str :=
  match s with
  | [] => []
  | c :: s' =>
      match rstrip_zeros s' with
      | [] => if c =? 48 then [] else [c]
      | r => c :: r
      end
  end.

(** Seconds in decimal, with the fraction cut after its last non-zero digit:
    the text Python gives for the timestamps of the examples below. *)
Definition seconds_text (micros : Z) : str :=
  let a := Z.to_N (Z.abs micros) in
  (if (micros <? 0)%Z then lit "-" else [])
  ++ str_of_N (a / 1000000) ++ lit "."
  ++ match rstrip_zeros
             (map (fun k => 48 + (a mod 1000000) / 10 ^ k mod 10)
                [5; 4; 3; 2; 1; 0])
     with
     | [] => lit "0"
     | fraction => fraction
     end.

(** A runtime for closed examples: no word characters or digits above the
    listed ranges, nothing supported beyond the modelled fragment, and
    floats written as decimal seconds. *)
Definition bare_runtime : Runtime := {|
  unicode_alnum := fun _ => false;
  unicode_decimal := fun _ => None;
  getattr_other := fun _ name => Error (AttributeError name);
  getitem := fun _ _ => Error TypeError;
  convert := fun _ _ => Error TypeError;
  format_builtin := fun _ _ => Error TypeError;
  float_str := seconds_text
|}.

(** The set the specification names: [A-Za-z0-9], [-], [_], [.], [(], [)],
    [/] and space. *)
Definition spec_valid_char (c : codepoint) : bool :=
  within 48 57 c || within 65 90 c || within 97 122 c
  || (c =? 45) || (c =? 95) || (c =? 46) || (c =? 40) || (c =? 41)
  || (c =? 47) || (c =? 32).

(** A word character outside ASCII: a letter or digit of another script. *)
Definition foreign_word (rt : Runtime) (c : codepoint) : bool :=
  (128 <=? c) && is_word rt c.

Definition front_door : ProtectApiClient := fun _ => Ok (lit "Front Door").

(** Two clients that differ, but not on the event's camera. *)
Definition other_client : ProtectApiClient :=
  fun camera_id =>
    if str_eqb camera_id (lit "cam1") then Ok (lit "Front Door")
    else Error (OtherException (lit "unknown camera")).

(** The state after the assignment of [event], and after more log records. *)
Definition bound (ev : Event) (st : State) : State :=
  mkState (db st) (log st) (spawned st) (Some ev).

Definition logged (st : State) (records : list LogRecord) : State :=
  mkState (db st) (log st ++ records) (spawned st) (event st).

(** Only the assignment in [get] writes the local [event]. *)
Definition keeps_event {A} (m : M A) : Prop :=
  forall st, event (fst (m st)) = event st.

Definition uploader0 : VideoUploader := {|
  _rclone_destination := lit "remote:backups";
  _rclone_args := lit "--fast-list";
  _file_structure_format := lit "{camera_name}/{detection_type}"
|}.

Definition clip1 : Event :=
  mkEvent (lit "e1") (lit "motion") (Some (lit "cam1"))
    (Some 1650000000000000%Z) (Some 1650000012500000%Z) [].

Definition clip2 : Event :=
  mkEvent (lit "e2") (lit "motion") (Some (lit "cam1"))
    (Some 1650000100000000%Z) (Some 1650000130000000%Z)
    [lit "person"; lit "vehicle"].

(** A delivery in which every collaborator does its part. *)
Definition delivered (ev : Event) (video : bytes) : Delivery := {|
  dequeued := Ok (ev, video);
  qsize_files := 0;
  protect := front_door;
  rclone := Ok (blit "", blit "", 0%Z);
  insert_event_fault := None;
  insert_backup_fault := None;
  commit_fault := None
|}.


Definition transfer_fails (ev : Event) (video : bytes) : Delivery := {|
  dequeued := Ok (ev, video);
  qsize_files := 1;
  protect := front_door;
  rclone := Ok (blit "", blit "disk full", 1%Z);
  insert_event_fault := None;
  insert_backup_fault := None;
  commit_fault := None
|}.

(** rclone ends with the given return code after writing one byte that is
    not UTF-8 on its standard output. *)
Definition undecodable_output (returncode : Z) (ev : Event) (video : bytes)
  : Delivery := {|
  dequeued := Ok (ev, video);
  qsize_files := 0;
  protect := front_door;
  rclone := Ok ([xff], blit "", returncode);
  insert_event_fault := None;
  insert_backup_fault := None;
  commit_fault := None
|}.

(** Spawning rclone raises: no process comes to exist. *)
Definition spawn_fails (ev : Event) (video : bytes) : Delivery := {|
  dequeued := Ok (ev, video);
  qsize_files := 0;
  protect := front_door;
  rclone := Error (OtherException (lit "rclone: not found"));
  insert_event_fault := None;
  insert_backup_fault := None;
  commit_fault := None
|}.

Definition commit_fails (ev : Event) (video : bytes) : Delivery := {|
  dequeued := Ok (ev, video);
  qsize_files := 0;
  protect := front_door;
  rclone := Ok (blit "", blit "", 0%Z);
  insert_event_fault := None;
  insert_backup_fault := None;
  commit_fault := Some (OtherException (lit "sqlite3.OperationalError"))
|}.

Definition backup_insert_fails (ev : Event) (video : bytes) : Delivery := {|
  dequeued := Ok (ev, video);
  qsize_files := 1;
  protect := front_door;
  rclone := Ok (blit "", blit "", 0%Z);
  insert_event_fault := None;
  insert_backup_fault := Some (OtherException (lit "sqlite3.IntegrityError"));
  commit_fault := None
|}.

Definition get_raises : Delivery := {|
  dequeued := Error (ValueError (lit "not enough values to unpack (expected 2)"));
  qsize_files := 0;
  protect := front_door;
  rclone := Ok (blit "", blit "", 0%Z);
  insert_event_fault := None;
  insert_backup_fault := None;
  commit_fault := None
|}.

(** The events INSERT of an event with the given timestamps, and its
    backups INSERT with the given remote and path. *)
Definition event_row (rt : Runtime) (ev : Event) (t0 t1 : Z) : statement :=
  insert_events (event_id ev) (event_type ev)
    (camera_id_text (event_camera_id ev)) (float_str rt t0) (float_str rt t1).

Definition backup_row (ev : Event) (remote path : str) : statement :=
  insert_backups (event_id ev) remote path.

(** The split the specification describes: at the first [:] only. *)
Fixpoint split_first (sep : codepoint) (s : str) : option (str * str) :=
  match s with
  | [] => None
  | c :: s' =>
      if c =? sep then Some ([], s')
      else option_map (fun p => (c :: fst p, snd p)) (split_first sep s')
  end.

Definition uploader_nested : VideoUploader := {|
  _rclone_destination := lit "nas:cams:front";
  _rclone_args := [];
  _file_structure_format := lit "{camera_name}/{detection_type}"
|}.



(** The fields a template refers to: the fields of its text and, for a
    field whose format specification contains a brace and is therefore
    expanded, the fields that specification refers to. *)
Inductive refers_to : str -> str -> Prop :=
| refers_field template field_name conv spec needs :
    In (TField field_name conv spec needs) (markup (MText []) template) ->
    refers_to template field_name
| refers_nested template outer conv spec field_name :
    In (TField outer conv spec true) (markup (MText []) template) ->
    refers_to spec field_name ->
    refers_to template field_name.




(** ** Vocabulary of the further properties *)

(** How many times a character occurs in a string. *)
Definition occurrences (c : codepoint) (s : str) : nat :=
  count_occ N.eq_dec s c.

(** The occurrences of a character in all the pieces of a list. *)
Definition total (c : codepoint) (parts : list str) : nat :=
  fold_right (fun p n => (occurrences c p + n)%nat) 0%nat parts.

(** Statements that come in groups, one per recording: the events INSERT
    of an event, followed or not by the backups INSERT of the same event. *)
Inductive paired (rt : Runtime) : list statement -> Prop :=
| paired_nil : paired rt []
| paired_event rows ev t0 t1 :
    paired rt rows -> paired rt (rows ++ [event_row rt ev t0 t1])
| paired_both rows ev t0 t1 remote path :
    paired rt rows ->
    paired rt (rows ++ [event_row rt ev t0 t1; backup_row ev remote path]).

(** The committed statements are paired, and so are these together with
    the statements of the open transaction. *)
Definition well_paired (rt : Runtime) (c : Connection) : Prop :=
  paired rt (committed c) /\ paired rt (committed c ++ pending c).

Definition prefix {A} (l l' : list A) : Prop := exists more, l' = l ++ more.

(** The log, the spawned processes and the committed statements of [st']
    extend those of [st]. *)
Definition grows (st st' : State) : Prop :=
  prefix (log st) (log st')
  /\ prefix (spawned st) (spawned st')
  /\ prefix (committed (db st)) (committed (db st')).

(** A computation every run of which relates the state it starts in to
    the state it ends in. *)
Definition preserves {A} (R : State -> State -> Prop) (m : M A) : Prop :=
  forall st, R st (fst (m st)).

(** The command line of [_upload_video]:
    [rclone rcat -vv {rclone_args} "{destination}"]. *)
Definition command (rclone_args : str) (destination : Path) : str :=
  lit "rclone rcat -vv " ++ rclone_args ++ lit " " ++ [dquote]
  ++ Path_str destination ++ [dquote].

Definition keeps_well_paired (rt : Runtime) (st st' : State) : Prop :=
  well_paired rt (db st) -> well_paired rt (db st').

Definition same_committed (st st' : State) : Prop :=
  committed (db st') = committed (db st).

(** An event that has not ended: its [end] is not a datetime. *)
Definition ongoing : Event :=
  mkEvent (lit "e3") (lit "motion") (Some (lit "cam1"))
    (Some 1650000200000000%Z) None [].

(** A character of a template that is no brace. *)
Definition plain (c : codepoint) : Prop := c <> lbrace /\ c <> rbrace.

(** * Properties *)

(** ** Strings *)

Lemma str_eqb_eq (a b : str) : str_eqb a b = true <-> a = b.
Proof.
  unfold str_eqb. destruct (list_eq_dec N.eq_dec a b); split; congruence.
Qed.

Lemma str_eqb_refl (a : str) : str_eqb a a = true.
Proof. now apply str_eqb_eq. Qed.

(** ** Sanitisation *)

Lemma below_by_cases (P : N -> Prop) (n : nat) :
  (forall k, (k < n)%nat -> P (N.of_nat k)) ->
  forall c, c < N.of_nat n -> P c.
Proof.
  intros H c Hc. rewrite <- (N2Nat.id c). apply H. lia.
Qed.

Lemma valid_char_ascii (rt : Runtime) (c : codepoint) :
  c < 128 -> valid_char rt c = spec_valid_char c.
Proof.
  revert c. apply (below_by_cases _ 128). intros k Hk.
  do 128 (destruct k as [|k]; [reflexivity|]). lia.
Qed.

Lemma spec_valid_char_ascii (c : codepoint) :
  spec_valid_char c = true -> c < 128.
Proof.
  unfold spec_valid_char, within. intros H.
  repeat (apply orb_prop in H; destruct H as [H|H]);
    repeat (apply andb_prop in H; destruct H as [H ?]);
    repeat match goal with
           | H : (_ <=? _) = true |- _ => apply N.leb_le in H
           | H : (_ =? _) = true |- _ => apply N.eqb_eq in H
           end; lia.
Qed.

Lemma valid_char_split (rt : Runtime) (c : codepoint) :
  valid_char rt c = spec_valid_char c || foreign_word rt c.
Proof.
  unfold foreign_word. destruct (N.leb_spec 128 c) as [Hc|Hc].
  - assert (Hs : spec_valid_char c = false).
    { destruct (spec_valid_char c) eqn:E; [|reflexivity].
      apply spec_valid_char_ascii in E. lia. }
    rewrite Hs. cbn [orb andb]. unfold valid_char.
    assert (Hne : forall k, k < 128 -> (c =? k) = false)
      by (intros k Hk; apply N.eqb_neq; lia).
    rewrite !Hne by lia. now rewrite !orb_false_r.
  - rewrite valid_char_ascii by exact Hc. cbn [andb]. now rewrite orb_false_r.
Qed.

Lemma filter_ext_bool {A} (f g : A -> bool) (l : list A) :
  (forall a, f a = g a) -> filter f l = filter g l.
Proof.
  intros H. induction l as [|a l IH]; cbn; [reflexivity|].
  now rewrite H, IH.
Qed.

(** C3, as stated, fails: the one-character string U+00E9 (e with acute
    accent) lies outside the set the claim names, so the claim has it
    stripped, but [\w] matches it and the substitution keeps it. *)
Lemma C3_sanitize_keeps_e_acute :
  (forall rt, sanitize rt [233] = [233])
  /\ filter spec_valid_char [233] = [].
Proof. split; [intros rt|]; reflexivity. Qed.

(** C3 (amended): the sanitising substitution keeps, in order, exactly the
    characters that are in [A-Za-z0-9\-_.()/ ] or are word characters
    outside ASCII (letters and digits of other scripts), and removes every
    other character; on a string of ASCII characters it keeps exactly the
    characters of [A-Za-z0-9\-_.()/ ]. *)
Theorem C3_sanitize_keeps_word_and_listed (rt : Runtime) (s : str) :
  sanitize rt s = filter (fun c => spec_valid_char c || foreign_word rt c) s
  /\ (Forall (fun c => c < 128) s -> sanitize rt s = filter spec_valid_char s).
Proof.
  split.
  - apply filter_ext_bool. apply valid_char_split.
  - intros Hs. unfold sanitize. induction Hs as [|c s Hc _ IH]; cbn.
    + reflexivity.
    + now rewrite valid_char_ascii, IH by exact Hc.
Qed.

Lemma C3_sanitize_ascii_example :
  sanitize bare_runtime (lit "Front Door: 'a'/b*c?.mp4")
  = lit "Front Door a/bc.mp4".
Proof.
  pose proof (proj2 (C3_sanitize_keeps_word_and_listed bare_runtime
                       (lit "Front Door: 'a'/b*c?.mp4"))) as H.
  rewrite H.
  - reflexivity.
  - repeat constructor.
Defined.

(** ** The transfer *)

(** When both captured outputs decode: a return code other than zero raises
    the [SubprocessException] that carries their text and the return code,
    unchanged, and return code zero returns normally. *)
Lemma upload_video_exit_status
  (env : Delivery) (video : bytes) (destination : Path) (rclone_args : str)
  (st : State) (stdout stderr : bytes) (returncode : Z) (out err : str) :
  rclone env = Ok (stdout, stderr, returncode) ->
  decode stdout = Ok out ->
  decode stderr = Ok err ->
  (returncode <> 0%Z ->
   snd (_upload_video env video destination rclone_args st)
   = Error (SubprocessException out err returncode))
  /\ (returncode = 0%Z ->
      snd (_upload_video env video destination rclone_args st) = Ok tt)
  /\ db (fst (_upload_video env video destination rclone_args st)) = db st.
Proof.
  intros Hproc Hout Herr.
  unfold _upload_video, bindM, communicate, lift, raise, logger.
  rewrite Hproc. cbn iota beta. rewrite Hout, Herr.
  destruct (Z.eqb_spec returncode 0) as [Hz|Hz]; cbn;
    repeat split; intros; congruence.
Qed.

(** C4 fails on the code. The captured outputs are decoded as strict UTF-8
    on both paths, so one byte that is not UTF-8 makes [_upload_video] raise
    [UnicodeDecodeError]: with return code 0 the call does not succeed, and
    the item, although transferred, is abandoned by the loop with nothing
    recorded; with return code 1 the exception raised is not the
    [SubprocessException], and the return code is lost. *)
Theorem C4_undecodable_output_raises :
  snd (_upload_video (undecodable_output 0 clip1 (blit "v1")) (blit "v1")
         (Path_of (lit "remote:backups/Front Door/motion")) []
         (initial empty_db))
  = Error UnicodeDecodeError
  /\ snd (_upload_video (undecodable_output 1 clip1 (blit "v1")) (blit "v1")
            (Path_of (lit "remote:backups/Front Door/motion")) []
            (initial empty_db))
     = Error UnicodeDecodeError
  /\ iteration bare_runtime uploader0
       (undecodable_output 0 clip1 (blit "v1")) (initial empty_db)
     = (mkState empty_db
          [Log INFO (lit "Uploading event: e1");
           Log DEBUG (lit " Remaining Upload Queue: 0");
           Log DEBUG (lit " Destination: remote:backups/Front Door/motion");
           Log WARNING (abandoning (lit "e1"));
           LogException UnicodeDecodeError]
          [(lit "rclone rcat -vv --fast-list " ++ [dquote]
            ++ lit "remote:backups/Front Door/motion" ++ [dquote],
            blit "v1")]
          (Some clip1), Ok tt).
Proof. repeat split; vm_compute; reflexivity. Qed.

(** ** The destination *)

Lemma format_detection_type (rt : Runtime) (ev : Event) (d : Z) (name : str) :
  format rt (lit "{detection_type}") (format_context ev d name)
  = Ok (detection_type ev).
Proof.
  unfold format_context. generalize (detection_type ev) as dt. intros dt.
  cbn. now rewrite app_nil_r.
Qed.

(** C8: the resolver renders [detection_type] as the event type alone when
    the event has no smart-detection labels and as the type followed by the
    space-joined labels in parentheses otherwise. An event of type "motion"
    without labels, under the template "{camera_name}/{detection_type}" and
    the camera name "Front Door", resolves to the path built from the
    configured root joined with "/Front Door/motion"; with the labels
    "person" and "vehicle" its [detection_type] is
    "motion (person vehicle)". *)
Theorem C8_detection_type_rendering
  (rt : Runtime) (root args : str) (api : ProtectApiClient)
  (id cam : str) (t0 t1 : datetime) :
  get_camera_name api cam = Ok (lit "Front Door") ->
  _generate_file_path rt
    {| _rclone_destination := root; _rclone_args := args;
       _file_structure_format := lit "{camera_name}/{detection_type}" |}
    api (mkEvent id (lit "motion") (Some cam) (Some t0) (Some t1) [])
  = Ok (Path_of (root ++ lit "/Front Door/motion"))
  /\ _generate_file_path rt
       {| _rclone_destination := root; _rclone_args := args;
          _file_structure_format := lit "{detection_type}" |}
       api (mkEvent id (lit "motion") (Some cam) (Some t0) (Some t1)
              [lit "person"; lit "vehicle"])
     = Ok (Path_of (root ++ lit "/motion (person vehicle)"))
  /\ (forall (ev : Event) (d : Z) (name : str),
        format rt (lit "{detection_type}") (format_context ev d name)
        = Ok (match event_smart_detect_types ev with
              | [] => event_type ev
              | labels =>
                  event_type ev ++ lit " (" ++ join (lit " ") labels ++ lit ")"
              end)).
Proof.
  intros Hname. split; [|split].
  - unfold _generate_file_path. cbn [assert_isinstance bind event_camera_id
      event_start event_end]. rewrite Hname. reflexivity.
  - unfold _generate_file_path. cbn [assert_isinstance bind event_camera_id
      event_start event_end]. rewrite Hname. reflexivity.
  - intros ev d name. apply format_detection_type.
Qed.

(** Scenario A of the specification under the root "remote:backups". *)
Lemma C8_scenario_front_door :
  option_map Path_str
    (match _generate_file_path bare_runtime
             {| _rclone_destination := lit "remote:backups";
                _rclone_args := [];
                _file_structure_format :=
                  lit "{camera_name}/{detection_type}" |}
             front_door
             (mkEvent (lit "e1") (lit "motion") (Some (lit "cam1"))
                (Some 0%Z) (Some 12000000%Z) [])
     with Ok p => Some p | Error _ => None end)
  = Some (lit "remote:backups/Front Door/motion").
Proof.
  exact (f_equal
           (fun r => option_map Path_str
                       (match r with Ok p => Some p | Error _ => None end))
           (proj1 (C8_detection_type_rendering bare_runtime
                     (lit "remote:backups") [] front_door (lit "e1")
                     (lit "cam1") 0%Z 12000000%Z eq_refl))).
Defined.

(** C9: the destination depends on the API client only through the camera
    name it resolves: two invocations on the same event, with the same
    template and root, and the same resolved camera name give the same
    path. *)
Theorem C9_generate_file_path_deterministic
  (rt : Runtime) (self : VideoUploader) (api1 api2 : ProtectApiClient)
  (ev : Event) :
  (forall camera_id, event_camera_id ev = Some camera_id ->
     get_camera_name api1 camera_id = get_camera_name api2 camera_id) ->
  _generate_file_path rt self api1 ev = _generate_file_path rt self api2 ev.
Proof.
  intros Hsame. unfold _generate_file_path.
  destruct (event_camera_id ev) as [camera_id|]; cbn; [|reflexivity].
  now rewrite (Hsame camera_id eq_refl).
Qed.

Lemma C9_same_name_same_path :
  _generate_file_path bare_runtime
    {| _rclone_destination := lit "remote:backups"; _rclone_args := [];
       _file_structure_format := lit "{camera_name}/{event.id}" |}
    front_door
    (mkEvent (lit "e1") (lit "motion") (Some (lit "cam1"))
       (Some 0%Z) (Some 12000000%Z) [])
  = _generate_file_path bare_runtime
      {| _rclone_destination := lit "remote:backups"; _rclone_args := [];
         _file_structure_format := lit "{camera_name}/{event.id}" |}
      other_client
      (mkEvent (lit "e1") (lit "motion") (Some (lit "cam1"))
         (Some 0%Z) (Some 12000000%Z) []).
Proof.
  apply C9_generate_file_path_deterministic.
  intros camera_id H. injection H as <-. reflexivity.
Defined.

(** ** The loop *)

Lemma bindM_ok {A B} (m : M A) (k : A -> M B) st st' a :
  m st = (st', Ok a) -> bindM m k st = k a st'.
Proof. intros H. unfold bindM. now rewrite H. Qed.

Lemma bindM_error {A B} (m : M A) (k : A -> M B) st st' e :
  m st = (st', Error e) -> bindM m k st = (st', Error e).
Proof. intros H. unfold bindM. now rewrite H. Qed.

Lemma keeps_event_bind {A B} (m : M A) (k : A -> M B) :
  keeps_event m -> (forall a, keeps_event (k a)) -> keeps_event (bindM m k).
Proof.
  intros Hm Hk st. unfold bindM. specialize (Hm st).
  destruct (m st) as [st' [a|e]]; cbn in *; [|exact Hm].
  now rewrite Hk.
Qed.

Lemma keeps_event_ret {A} (a : A) : keeps_event (ret a).
Proof. now intros st. Qed.

Lemma keeps_event_raise {A} (e : exn) : keeps_event (@raise A e).
Proof. now intros st. Qed.

Lemma keeps_event_lift {A} (r : result A) : keeps_event (lift r).
Proof. now intros st. Qed.

Lemma keeps_event_logger level msg : keeps_event (logger level msg).
Proof. now intros st. Qed.

Lemma keeps_event_logger_exception e : keeps_event (logger_exception e).
Proof. now intros st. Qed.

Lemma keeps_event_execute fault s : keeps_event (execute fault s).
Proof. intros st. unfold execute. now destruct fault. Qed.

Lemma keeps_event_commit fault : keeps_event (commit fault).
Proof. intros st. unfold commit. now destruct fault. Qed.

Lemma keeps_event_communicate env cmd video :
  keeps_event (communicate env cmd video).
Proof. intros st. unfold communicate. now destruct (rclone env). Qed.

Create HintDb keeps discriminated.
#[local] Hint Resolve keeps_event_ret keeps_event_raise keeps_event_lift
  keeps_event_logger keeps_event_logger_exception keeps_event_execute
  keeps_event_commit keeps_event_communicate : keeps.

Ltac keeps_event :=
  repeat first
    [ apply keeps_event_bind; [|intros]
    | solve [auto with keeps]
    | match goal with
      | p : (_ * _)%type |- _ => destruct p
      | |- keeps_event (if ?b then _ else _) => destruct b
      end ].

Lemma keeps_event_upload_video env video destination rclone_args :
  keeps_event (_upload_video env video destination rclone_args).
Proof. unfold _upload_video. keeps_event. Qed.

Lemma keeps_event_update_database rt env ev destination :
  keeps_event (_update_database rt env ev destination).
Proof. unfold _update_database. keeps_event. Qed.

#[local] Hint Resolve keeps_event_upload_video keeps_event_update_database
  : keeps.

Section Loop.

Variable rt : Runtime.
Variable self : VideoUploader.

Lemma keeps_event_process env ev video :
  keeps_event (process rt self env ev video).
Proof. unfold process. keeps_event. Qed.

Lemma try_block_dequeued env st ev video :
  dequeued env = Ok (ev, video) ->
  try_block rt self env st = process rt self env ev video (bound ev st).
Proof.
  intros H. unfold try_block, bindM, get. now rewrite H.
Qed.

(** An exception raised after the assignment is handled: the warning names
    the event just dequeued, and the loop goes on. *)
Lemma iteration_caught env st ev video st1 e :
  dequeued env = Ok (ev, video) ->
  process rt self env ev video (bound ev st) = (st1, Error e) ->
  iteration rt self env st
  = (logged st1 [Log WARNING (abandoning (event_id ev)); LogException e],
     Ok tt).
Proof.
  intros Hget Hraise. unfold iteration.
  rewrite (try_block_dequeued _ _ _ _ Hget), Hraise.
  pose proof (keeps_event_process env ev video (bound ev st)) as Hev.
  rewrite Hraise in Hev. cbn in Hev.
  unfold handler, bindM, local_event, logger, logger_exception, logged.
  rewrite Hev. cbn [db log spawned event].
  now rewrite <- app_assoc, Hev.
Qed.

Lemma iteration_done env st ev video st1 :
  dequeued env = Ok (ev, video) ->
  process rt self env ev video (bound ev st) = (st1, Ok tt) ->
  iteration rt self env st = (st1, Ok tt).
Proof.
  intros Hget Hdone. unfold iteration.
  now rewrite (try_block_dequeued _ _ _ _ Hget), Hdone.
Qed.


Lemma loop_step env rest st st' :
  iteration rt self env st = (st', Ok tt) ->
  loop rt self (env :: rest) st = loop rt self rest st'.
Proof. intros H. cbn [loop]. now rewrite (bindM_ok _ _ _ _ _ H). Qed.



End Loop.


(** A transfer that ends with a return code other than zero raises before
    the database is reached. *)
Lemma process_failed_transfer rt self env ev video st stdout stderr rc :
  rclone env = Ok (stdout, stderr, rc) ->
  rc <> 0%Z ->
  exists st1 e,
    process rt self env ev video st = (st1, Error e) /\ db st1 = db st.
Proof.
  intros Hproc Hrc. unfold process, bindM, logger, lift. cbn [db log spawned event].
  destruct (_generate_file_path rt self (protect env) ev) as [destination|e].
  - unfold _upload_video, bindM, communicate, lift, raise.
    rewrite Hproc. cbn [db log spawned event].
    destruct (Z.eqb_spec rc 0) as [Hz|_]; [contradiction|].
    destruct (decode stdout) as [out|e1]; [|eauto].
    destruct (decode stderr) as [err|e2]; eauto.
  - eauto.
Qed.

(** C5: an item whose rclone process ends with a return code other than
    zero leaves the database connection as it was (no statement is executed,
    nothing is committed), and the loop proceeds with the next delivery. In
    the run of two items where the first fails at the transfer and the second
    succeeds, the committed statements are the events INSERT and the backups
    INSERT of the second item alone. *)
Theorem C5_failed_transfer_records_nothing :
  (forall (rt : Runtime) (self : VideoUploader) (env : Delivery) (st : State)
          (ev : Event) (video stdout stderr : bytes) (rc : Z),
      dequeued env = Ok (ev, video) ->
      rclone env = Ok (stdout, stderr, rc) ->
      rc <> 0%Z ->
      exists st',
        iteration rt self env st = (st', Ok tt)
        /\ db st' = db st
        /\ forall rest,
             loop rt self (env :: rest) st = loop rt self rest st')
  /\ db (fst (start bare_runtime uploader0
                [transfer_fails clip1 (blit "v1"); delivered clip2 (blit "v2")]
                (initial empty_db)))
     = {| committed :=
            [event_row bare_runtime clip2 1650000100000000 1650000130000000;
             backup_row clip2 (lit "remote")
               (lit "backups/Front Door/motion (person vehicle)")];
          pending := [] |}.
Proof.
  split; [|vm_compute; reflexivity].
  intros rt self env st ev video stdout stderr rc Hget Hproc Hrc.
  destruct (process_failed_transfer rt self env ev video (bound ev st)
              stdout stderr rc Hproc Hrc) as (st1 & e & Hp & Hdb).
  pose proof (iteration_caught _ _ _ _ _ _ _ _ Hget Hp) as Hit.
  eexists. split; [exact Hit|]. split; [exact Hdb|].
  intros rest. now apply loop_step.
Qed.

Lemma C5_first_of_two_fails :
  exists st',
    iteration bare_runtime uploader0 (transfer_fails clip1 (blit "v1"))
      (initial empty_db) = (st', Ok tt)
    /\ db st' = empty_db
    /\ forall rest,
         loop bare_runtime uploader0
           (transfer_fails clip1 (blit "v1") :: rest) (initial empty_db)
         = loop bare_runtime uploader0 rest st'.
Proof.
  refine (proj1 C5_failed_transfer_records_nothing bare_runtime uploader0
            (transfer_fails clip1 (blit "v1")) (initial empty_db) clip1
            (blit "v1") (blit "") (blit "disk full") 1%Z eq_refl eq_refl _).
  discriminate.
Defined.

(** C10 fails on the code. When [get] raises, the handler still reads the
    local [event]: on the first iteration it is unbound, the handler raises
    [UnboundLocalError] and [start] ends with that exception; on a later
    iteration the warning names the event of the previous item. *)
Theorem C10_handler_reads_event_of_previous_item
  (rt : Runtime) (self : VideoUploader) (env : Delivery) (e : exn) :
  dequeued env = Error e ->
  (forall c rest,
     snd (start rt self (env :: rest) (initial c))
     = Error (UnboundLocalError (lit "event")))
  /\ (forall st previous,
        event st = Some previous ->
        iteration rt self env st
        = (logged st [Log WARNING (abandoning (event_id previous));
                      LogException e], Ok tt)).
Proof.
  intros Hget. split.
  - intros c rest.
    unfold start, bindM, logger, iteration, try_block, get. cbn [loop].
    unfold bindM, iteration, try_block, bindM, get. now rewrite Hget.
  - intros st previous Hev.
    unfold iteration, try_block, bindM, get. rewrite Hget.
    unfold handler, bindM, local_event, logger, logger_exception, logged.
    rewrite Hev. cbn [db log spawned event].
    now rewrite <- app_assoc, Hev.
Qed.

Lemma C10_get_raises_first_and_later :
  (forall c rest,
     snd (start bare_runtime uploader0 (get_raises :: rest) (initial c))
     = Error (UnboundLocalError (lit "event")))
  /\ (forall st previous,
        event st = Some previous ->
        iteration bare_runtime uploader0 get_raises st
        = (logged st
             [Log WARNING (abandoning (event_id previous));
              LogException
                (ValueError (lit "not enough values to unpack (expected 2)"))],
           Ok tt)).
Proof.
  exact (C10_handler_reads_event_of_previous_item bare_runtime uploader0
           get_raises _ eq_refl).
Defined.

(** ** The ledger *)

(** When nothing fails, the two statements are committed by the one
    [commit]. *)
Lemma update_database_commits_both rt env ev destination st t0 t1 remote
  path :
  event_start ev = Some t0 ->
  event_end ev = Some t1 ->
  split colon (Path_str destination) = [remote; path] ->
  insert_event_fault env = None ->
  insert_backup_fault env = None ->
  commit_fault env = None ->
  _update_database rt env ev destination st
  = (mkState
       {| committed := committed (db st)
                       ++ (pending (db st) ++ [event_row rt ev t0 t1])
                       ++ [backup_row ev remote path];
          pending := [] |}
       (log st) (spawned st) (event st), Ok tt).
Proof.
  intros H0 H1 Hsplit F1 F2 F3.
  unfold _update_database, bindM, lift, execute, commit, set_db.
  rewrite H0, H1. cbn [timestamp]. rewrite F1. cbn [db log spawned event].
  rewrite Hsplit. cbn [unpack2]. rewrite F2. cbn [db log spawned event].
  rewrite F3. reflexivity.
Qed.

(** C1 fails on the code. The second INSERT of the first item raises; the
    first INSERT stays in the open transaction, nothing rolls it back, and
    the [commit] of the next item commits it: the committed statements then
    hold the events INSERT of the first item and no backups INSERT for it. *)
Theorem C1_orphan_event_row_committed :
  db (fst (start bare_runtime uploader0
             [backup_insert_fails clip1 (blit "v1"); delivered clip2 (blit "v2")]
             (initial empty_db)))
  = {| committed :=
         [event_row bare_runtime clip1 1650000000000000 1650000012500000;
          event_row bare_runtime clip2 1650000100000000 1650000130000000;
          backup_row clip2 (lit "remote")
            (lit "backups/Front Door/motion (person vehicle)")];
       pending := [] |}
  /\ db (fst (start bare_runtime uploader0
                [backup_insert_fails clip1 (blit "v1")] (initial empty_db)))
     = {| committed := [];
          pending := [event_row bare_runtime clip1 1650000000000000
                        1650000012500000] |}.
Proof. split; vm_compute; reflexivity. Qed.

Lemma split_one_separator sep s a b :
  split_first sep s = Some (a, b) ->
  existsb (N.eqb sep) b = false ->
  split sep s = [a; b].
Proof.
  revert a. induction s as [|c s IH]; intros a Hs Hb; [discriminate|].
  cbn in Hs |- *. destruct (c =? sep) eqn:E.
  - injection Hs as <- <-. clear IH.
    induction s as [|d s IH]; [reflexivity|].
    cbn in Hb |- *. rewrite N.eqb_sym in Hb.
    destruct (d =? sep); [discriminate|]. cbn in Hb.
    specialize (IH Hb). injection IH as IH. now rewrite IH.
  - destruct (split_first sep s) as [[a' b']|]; [|discriminate].
    injection Hs as <- <-. cbn [fst snd]. now rewrite (IH a' eq_refl Hb).
Qed.

(** C6 fails on the code. Under the root "nas:cams:front" the destination
    "nas:cams:front/Front Door/motion" has two colons; splitting at the first
    one gives the remote "nas" and the path "cams:front/Front Door/motion",
    but [_update_database] splits at every colon, the unpacking into two
    names raises [ValueError], and the item is abandoned with its events
    INSERT left in the open transaction. *)
Theorem C6_second_colon_breaks_recording :
  _generate_file_path bare_runtime uploader_nested front_door clip1
  = Ok (Path_of (lit "nas:cams:front/Front Door/motion"))
  /\ split_first colon (lit "nas:cams:front/Front Door/motion")
     = Some (lit "nas", lit "cams:front/Front Door/motion")
  /\ _update_database bare_runtime (delivered clip1 (blit "v1")) clip1
       (Path_of (lit "nas:cams:front/Front Door/motion")) (initial empty_db)
     = (mkState {| committed := [];
                   pending := [event_row bare_runtime clip1 1650000000000000
                                 1650000012500000] |} [] [] None,
        Error (ValueError (lit "too many values to unpack (expected 2)")))
  /\ committed (db (fst (start bare_runtime uploader_nested
                           [delivered clip1 (blit "v1");
                            delivered clip2 (blit "v2")]
                           (initial empty_db)))) = [].
Proof. repeat split; vm_compute; reflexivity. Qed.

(** ** Template fields *)










Lemma process_unresolved rt self env ev video st e :
  _generate_file_path rt self (protect env) ev = Error e ->
  process rt self env ev video st
  = (logged st
       [Log INFO (lit "Uploading event: " ++ event_id ev);
        Log DEBUG (lit " Remaining Upload Queue: "
                   ++ str_of_N (qsize_files env))],
     Error e).
Proof.
  intros H. unfold process, bindM, logger, lift, logged.
  cbn [db log spawned event]. rewrite H.
  now rewrite <- app_assoc.
Qed.




(** A field inside a format specification is referred to as well. *)
Lemma refers_to_inside_format_spec :
  refers_to (lit "{camera_name:>{width}}") (lit "width").
Proof.
  apply (refers_nested _ (lit "camera_name") None (lit ">{width}")).
  - cbn. tauto.
  - apply (refers_field _ _ None [] false). cbn. tauto.
Qed.

(** * Further properties *)

(** ** Counting and membership through [split], [join] and [Path] *)

Lemma occurrences_cons c d s :
  occurrences c (d :: s)
  = if d =? c then S (occurrences c s) else occurrences c s.
Proof.
  unfold occurrences. destruct (N.eqb_spec d c) as [->|Hne].
  - now rewrite count_occ_cons_eq.
  - now rewrite count_occ_cons_neq.
Qed.

Lemma occurrences_nil c : occurrences c [] = 0%nat.
Proof. reflexivity. Qed.

Lemma occurrences_other c d s :
  c <> d -> occurrences c (d :: s) = occurrences c s.
Proof.
  intros H. rewrite occurrences_cons.
  destruct (N.eqb_spec d c); [congruence|reflexivity].
Qed.

Lemma join_cons sep p ps :
  join sep (p :: ps) = match ps with [] => p | _ => p ++ sep ++ join sep ps end.
Proof. destruct ps; reflexivity. Qed.

Lemma split_nonempty sep s : split sep s <> [].
Proof.
  destruct s as [|c s]; cbn; [discriminate|].
  destruct (c =? sep); [discriminate|]. destruct (split sep s); discriminate.
Qed.

Lemma join_split sep s : join [sep] (split sep s) = s.
Proof.
  induction s as [|c s IH]; [reflexivity|]. cbn [split].
  destruct (N.eqb_spec c sep) as [->|Hne].
  - rewrite join_cons. destruct (split sep s) eqn:E.
    + now apply split_nonempty in E.
    + cbn [app]. now rewrite IH.
  - destruct (split sep s) as [|w ws] eqn:E.
    + now apply split_nonempty in E.
    + rewrite join_cons in IH |- *. destruct ws; cbn [app] in *; now rewrite IH.
Qed.

Lemma length_split sep s :
  List.length (split sep s) = S (occurrences sep s).
Proof.
  induction s as [|c s IH]; [reflexivity|].
  cbn [split]. rewrite occurrences_cons.
  destruct (N.eqb_spec c sep) as [->|Hne].
  - cbn [List.length]. now rewrite IH.
  - destruct (split sep s) as [|w ws] eqn:E; [now apply split_nonempty in E|].
    exact IH.
Qed.

Lemma in_split sep s w c : In w (split sep s) -> In c w -> In c s.
Proof.
  revert w. induction s as [|d s IH]; intros w Hw Hc.
  - cbn in Hw. destruct Hw as [<-|[]]. exact Hc.
  - cbn [split] in Hw. destruct (d =? sep).
    + destruct Hw as [<-|Hw]; [contradiction|]. right. eauto.
    + destruct (split sep s) as [|w0 ws] eqn:E.
      * now apply split_nonempty in E.
      * destruct Hw as [<-|Hw].
        -- destruct Hc as [->|Hc]; [now left|]. right. apply (IH w0); [now left|exact Hc].
        -- right. apply (IH w); [now right|exact Hc].
Qed.

Lemma occurrences_app c a b :
  occurrences c (a ++ b) = (occurrences c a + occurrences c b)%nat.
Proof. apply count_occ_app. Qed.

Lemma occurrences_join c sep parts :
  c <> sep -> occurrences c (join [sep] parts) = total c parts.
Proof.
  intros Hne. induction parts as [|p ps IH]; [reflexivity|].
  rewrite join_cons. cbn [total fold_right]. fold (total c ps). destruct ps as [|q qs].
  - unfold total. cbn [fold_right]. lia.
  - rewrite !occurrences_app, IH, occurrences_other by assumption.
    rewrite occurrences_nil. lia.
Qed.

Lemma total_components c parts :
  c <> dot -> total c (filter is_component parts) = total c parts.
Proof.
  intros Hne. induction parts as [|p ps IH]; [reflexivity|].
  cbn [filter]. destruct (is_component p) eqn:E; cbn [total fold_right];
    fold (total c ps); fold (total c (filter is_component ps)); rewrite IH; [reflexivity|].
  unfold is_component in E. apply andb_false_iff in E.
  destruct E as [E|E]; apply negb_false_iff, str_eqb_eq in E; subst p.
  - reflexivity.
  - change (lit ".") with [dot].
    now rewrite (occurrences_other c dot []) by assumption.
Qed.

Lemma occurrences_lstrip c s :
  c <> slash -> occurrences c (lstrip_slashes s) = occurrences c s.
Proof.
  intros Hne. induction s as [|d s IH]; [reflexivity|]. cbn [lstrip_slashes].
  destruct (N.eqb_spec d slash) as [->|Hd]; [|reflexivity].
  now rewrite IH, occurrences_other by assumption.
Qed.

Lemma splitroot_spec s :
  let '(root, rel) := splitroot s in
  (root = [] \/ root = [slash] \/ root = [slash; slash])
  /\ forall c, c <> slash -> occurrences c rel = occurrences c s.
Proof.
  unfold splitroot. destruct s as [|d s]; [now auto|].
  destruct (N.eqb_spec d slash) as [->|Hd]; [|now auto].
  destruct (_ =? 2)%nat; (split; [now auto|]); intros c Hc;
    now apply occurrences_lstrip.
Qed.

Lemma occurrences_Path c s :
  c <> slash -> c <> dot ->
  occurrences c (Path_str (Path_of s)) = occurrences c s.
Proof.
  intros Hs Hd. unfold Path_of. pose proof (splitroot_spec s) as H.
  destruct (splitroot s) as [root rel]. destruct H as [Hroot Hrel].
  unfold Path_str. cbn [path_root path_parts].
  assert (H : occurrences c (root ++ join [slash] (filter is_component (split slash rel)))
              = occurrences c s).
  { rewrite occurrences_app, occurrences_join, total_components by assumption.
    rewrite <- (occurrences_join c slash) by assumption.
    rewrite join_split, Hrel by assumption.
    assert (occurrences c root = 0%nat) as ->; [|reflexivity].
    destruct Hroot as [->|[->| ->]];
      now rewrite ?occurrences_other by assumption. }
  destruct (root ++ _) eqn:E; [|exact H].
  rewrite <- H. apply (occurrences_other c dot []). exact Hd.
Qed.

Lemma in_join c sep parts :
  In c (join [sep] parts) -> c = sep \/ exists p, In p parts /\ In c p.
Proof.
  induction parts as [|p ps IH]; [intros []|]. rewrite join_cons.
  destruct ps as [|q qs].
  - intros H. right. exists p. split; [now left|exact H].
  - intros H. apply in_app_or in H. destruct H as [H|H].
    + right. exists p. split; [now left|exact H].
    + cbn [app] in H. destruct H as [<-|H]; [now left|].
      destruct (IH H) as [->|(p' & Hp' & Hc)]; [now left|].
      right. exists p'. split; [now right|exact Hc].
Qed.

Lemma in_lstrip c s : In c (lstrip_slashes s) -> In c s.
Proof.
  induction s as [|d s IH]; [intros []|]. cbn [lstrip_slashes].
  destruct (d =? slash); [|trivial]. intros H. right. auto.
Qed.

Lemma in_Path c s :
  In c (Path_str (Path_of s)) -> c = slash \/ c = dot \/ In c s.
Proof.
  unfold Path_of, splitroot.
  assert (Hrel : forall rel root,
             (forall d, In d root -> d = slash) ->
             (forall d, In d rel -> In d s) ->
             In c (Path_str (mkPath root (filter is_component (split slash rel)))) ->
             c = slash \/ c = dot \/ In c s).
  { intros rel root Hroot Hin. unfold Path_str. cbn [path_root path_parts].
    destruct (root ++ _) eqn:E.
    - cbn. intros [<-|[]]. right. now left.
    - rewrite <- E. intros H. apply in_app_or in H. destruct H as [H|H].
      + left. now apply Hroot.
      + apply in_join in H. destruct H as [->|(p & Hp & Hc)]; [now left|].
        right. right. apply Hin. apply filter_In in Hp. destruct Hp as [Hp _].
        eapply in_split; eauto. }
  destruct s as [|d s].
  - apply (Hrel [] []); [intros ? []|trivial].
  - destruct (d =? slash).
    + destruct (_ =? 2)%nat; apply Hrel; try (intros ?; apply in_lstrip);
        intros x Hx; cbn in Hx; intuition congruence.
    + apply Hrel; [intros ? []|trivial].
Qed.

Lemma sanitize_valid rt s c : In c (sanitize rt s) -> valid_char rt c = true.
Proof. unfold sanitize. intros H. now apply filter_In in H. Qed.

Lemma valid_char_listed rt c :
  In c [0; 10; 34; 36; 39; 58; 59; 92; 96; 124] -> valid_char rt c = false.
Proof.
  intros H. repeat (destruct H as [<-|H]; [reflexivity|]). destruct H.
Qed.

Lemma occurrences_sanitize rt s c :
  valid_char rt c = false -> occurrences c (sanitize rt s) = 0%nat.
Proof.
  intros H. apply count_occ_not_In. intros Hin.
  apply sanitize_valid in Hin. congruence.
Qed.

(** ** Relations every step of the loop preserves *)

Lemma bindM_ok_inv {A B} (m : M A) (k : A -> M B) st st2 b :
  bindM m k st = (st2, Ok b) ->
  exists a st1, m st = (st1, Ok a) /\ k a st1 = (st2, Ok b).
Proof.
  unfold bindM. destruct (m st) as [st1 [a|e]]; [eauto|discriminate].
Qed.

Section Stepwise.

Variable R : State -> State -> Prop.
Hypothesis R_refl : forall st, R st st.
Hypothesis R_trans : forall a b c, R a b -> R b c -> R a c.
Hypothesis R_log : forall st records, R st (logged st records).
Hypothesis R_spawn :
  forall st p, R st (mkState (db st) (log st) (spawned st ++ [p]) (event st)).
Hypothesis R_bound : forall st ev, R st (bound ev st).

Lemma preserves_bind {A B} (m : M A) (k : A -> M B) :
  preserves R m -> (forall a, preserves R (k a)) -> preserves R (bindM m k).
Proof.
  intros Hm Hk st. unfold bindM. specialize (Hm st).
  destruct (m st) as [st' [a|e]]; cbn [fst] in *; [|exact Hm].
  eapply R_trans; [exact Hm|apply Hk].
Qed.

Lemma preserves_lift_bind {A B} (r : result A) (k : A -> M B) :
  (forall a, r = Ok a -> preserves R (k a)) -> preserves R (bindM (lift r) k).
Proof.
  intros H st. unfold bindM, lift.
  destruct r as [a|e]; cbn [fst]; [now apply H|apply R_refl].
Qed.

Lemma preserves_lift {A} (r : result A) : preserves R (lift r).
Proof. intros st. apply R_refl. Qed.

Lemma preserves_raise {A} (e : exn) : preserves R (@raise A e).
Proof. intros st. apply R_refl. Qed.

Lemma preserves_logger level msg : preserves R (logger level msg).
Proof. intros st. apply (R_log st [Log level msg]). Qed.

Lemma preserves_logger_exception e : preserves R (logger_exception e).
Proof. intros st. apply (R_log st [LogException e]). Qed.

Lemma preserves_upload_video env video destination rclone_args :
  preserves R (_upload_video env video destination rclone_args).
Proof.
  unfold _upload_video. apply preserves_bind.
  - intros st. unfold communicate.
    destruct (rclone env); cbn [fst]; [apply R_spawn|apply R_refl].
  - intros [[stdout stderr] rc]. destruct (rc =? 0)%Z;
      repeat first [ apply preserves_bind; [|intros]
                   | apply preserves_lift | apply preserves_raise
                   | apply preserves_logger ].
Qed.

Variable rt : Runtime.
Variable self : VideoUploader.
Variable good : Path -> Prop.
Hypothesis good_generated :
  forall api ev p, _generate_file_path rt self api ev = Ok p -> good p.
Hypothesis R_update :
  forall env ev p, good p -> preserves R (_update_database rt env ev p).

Lemma preserves_process env ev video :
  preserves R (process rt self env ev video).
Proof.
  unfold process.
  apply preserves_bind; [apply preserves_logger|intros _].
  apply preserves_bind; [apply preserves_logger|intros _].
  apply preserves_lift_bind. intros p Hp.
  apply preserves_bind; [apply preserves_logger|intros _].
  apply preserves_bind; [apply preserves_upload_video|intros _].
  apply preserves_bind; [|intros _; apply preserves_logger].
  apply R_update. exact (good_generated _ _ _ Hp).
Qed.

Lemma preserves_iteration env : preserves R (iteration rt self env).
Proof.
  intros st. unfold iteration.
  assert (Htry : R st (fst (try_block rt self env st))).
  { unfold try_block, bindM, get.
    destruct (dequeued env) as [[ev video]|e]; cbn [fst]; [|apply R_refl].
    eapply R_trans; [apply (R_bound st ev)|apply preserves_process]. }
  destruct (try_block rt self env st) as [st' [[]|e]]; cbn [fst] in *;
    [exact Htry|].
  eapply R_trans; [exact Htry|].
  unfold handler, bindM, local_event.
  destruct (event st') as [ev|]; cbn [fst]; [|apply R_refl].
  apply (preserves_bind (logger WARNING (abandoning (event_id ev)))
           (fun _ => logger_exception e));
    [apply preserves_logger|intros _; apply preserves_logger_exception].
Qed.

Lemma preserves_loop envs : preserves R (loop rt self envs).
Proof.
  induction envs as [|env envs IH]; cbn [loop].
  - intros st. apply R_refl.
  - apply preserves_bind; [apply preserves_iteration|intros _; exact IH].
Qed.

Lemma preserves_start envs : preserves R (start rt self envs).
Proof.
  unfold start.
  apply preserves_bind; [apply preserves_logger|intros _; apply preserves_loop].
Qed.

End Stepwise.

(** ** The steps of the resolver and of the recording *)

Lemma unpack2_ok parts a b : unpack2 parts = Ok (a, b) -> parts = [a; b].
Proof.
  destruct parts as [|x [|y [|z parts]]]; cbn; intros H; try discriminate.
  now injection H as -> ->.
Qed.

Lemma split_free sep s w : In w (split sep s) -> ~ In sep w.
Proof.
  revert w. induction s as [|d s IH]; intros w Hw.
  - cbn in Hw. destruct Hw as [<-|[]]. intros [].
  - cbn [split] in Hw. destruct (N.eqb_spec d sep) as [->|Hne].
    + destruct Hw as [<-|Hw]; [intros []|now apply IH].
    + destruct (split sep s) as [|w0 ws] eqn:E; [now apply split_nonempty in E|].
      destruct Hw as [<-|Hw].
      * intros [->|Hin]; [congruence|]. apply (IH w0); [now left|exact Hin].
      * apply IH. now right.
Qed.

Lemma generate_file_path_inv rt self api ev p :
  _generate_file_path rt self api ev = Ok p ->
  exists camera_id t0 t1 name file_path,
    event_camera_id ev = Some camera_id
    /\ event_start ev = Some t0
    /\ event_end ev = Some t1
    /\ get_camera_name api camera_id = Ok name
    /\ format rt (_file_structure_format self)
         (format_context ev (t1 - t0)%Z name) = Ok file_path
    /\ p = Path_of (_rclone_destination self ++ lit "/"
                    ++ sanitize rt file_path).
Proof.
  unfold _generate_file_path.
  destruct (event_camera_id ev) as [camera_id|]; [|discriminate].
  destruct (event_start ev) as [t0|]; [|discriminate].
  destruct (event_end ev) as [t1|]; [|discriminate].
  cbn [assert_isinstance bind].
  destruct (get_camera_name api camera_id) as [name|] eqn:Hname;
    [|discriminate].
  cbn [bind].
  destruct (format rt _ _) as [file_path|] eqn:Hformat; [|discriminate].
  cbn [bind]. intros H. injection H as <-.
  exists camera_id, t0, t1, name, file_path. auto 10.
Qed.

Lemma destination_colons rt self api ev p :
  _generate_file_path rt self api ev = Ok p ->
  occurrences colon (Path_str p) = occurrences colon (_rclone_destination self).
Proof.
  intros H. apply generate_file_path_inv in H.
  destruct H as (camera_id & t0 & t1 & name & file_path & _ & _ & _ & _ & _ & ->).
  rewrite occurrences_Path by discriminate.
  rewrite !occurrences_app, occurrences_sanitize by reflexivity.
  change (lit "/") with [slash].
  rewrite (occurrences_other colon slash []) by discriminate.
  rewrite occurrences_nil. lia.
Qed.

Lemma prefix_refl {A} (l : list A) : prefix l l.
Proof. exists []. symmetry. apply app_nil_r. Qed.

Lemma prefix_app {A} (l more : list A) : prefix l (l ++ more).
Proof. now exists more. Qed.

Lemma prefix_trans {A} (a b c : list A) : prefix a b -> prefix b c -> prefix a c.
Proof. intros [x ->] [y ->]. exists (x ++ y). now rewrite app_assoc. Qed.

Lemma grows_refl st : grows st st.
Proof. repeat split; apply prefix_refl. Qed.

Lemma grows_trans a b c : grows a b -> grows b c -> grows a c.
Proof.
  intros (H1 & H2 & H3) (K1 & K2 & K3).
  repeat split; eapply prefix_trans; eauto.
Qed.

Lemma grows_update_database rt env ev p :
  preserves grows (_update_database rt env ev p).
Proof.
  intros st. unfold _update_database, bindM, lift, execute, commit, set_db.
  destruct (timestamp (event_start ev)); cbn [fst]; [|apply grows_refl].
  destruct (timestamp (event_end ev)); cbn [fst]; [|apply grows_refl].
  destruct (insert_event_fault env); cbn [fst db log spawned event];
    [apply grows_refl|].
  destruct (unpack2 _) as [[remote path]|]; cbn [fst db log spawned event];
    [|repeat split; apply prefix_refl].
  destruct (insert_backup_fault env); cbn [fst db log spawned event committed pending];
    [repeat split; apply prefix_refl|].
  destruct (commit_fault env); cbn [fst db log spawned event committed pending];
    repeat split; first [apply prefix_refl|apply prefix_app].
Qed.

Lemma well_paired_steps rt c ev t0 t1 remote path :
  well_paired rt c ->
  well_paired rt {| committed := committed c;
                    pending := pending c ++ [event_row rt ev t0 t1] |}
  /\ well_paired rt {| committed := committed c;
                       pending := (pending c ++ [event_row rt ev t0 t1])
                                  ++ [backup_row ev remote path] |}
  /\ well_paired rt {| committed := committed c
                                    ++ (pending c ++ [event_row rt ev t0 t1])
                                    ++ [backup_row ev remote path];
                       pending := [] |}.
Proof.
  intros [Hc Hall]. unfold well_paired. cbn [committed pending].
  assert (H1 : paired rt (committed c ++ pending c ++ [event_row rt ev t0 t1])).
  { rewrite app_assoc. now apply paired_event. }
  assert (H2 : paired rt (committed c
                          ++ (pending c ++ [event_row rt ev t0 t1])
                          ++ [backup_row ev remote path])).
  { replace (committed c ++ (pending c ++ [event_row rt ev t0 t1])
             ++ [backup_row ev remote path])
      with ((committed c ++ pending c)
            ++ [event_row rt ev t0 t1; backup_row ev remote path])
      by (now rewrite <- !app_assoc).
    now apply paired_both. }
  rewrite app_nil_r. auto.
Qed.

Lemma well_paired_update_database rt env ev p :
  preserves (keeps_well_paired rt) (_update_database rt env ev p).
Proof.
  intros st H. unfold _update_database, bindM, lift, execute, commit, set_db.
  destruct (timestamp (event_start ev)) as [t0|]; cbn [fst]; [|exact H].
  destruct (timestamp (event_end ev)) as [t1|]; cbn [fst]; [|exact H].
  destruct (insert_event_fault env); cbn [fst db log spawned event]; [exact H|].
  destruct (unpack2 _) as [[remote path]|]; cbn [fst db log spawned event].
  - destruct (well_paired_steps rt (db st) ev t0 t1 remote path H)
      as (H1 & H2 & H3).
    destruct (insert_backup_fault env);
      cbn [fst db log spawned event committed pending]; [exact H1|].
    destruct (commit_fault env);
      cbn [fst db log spawned event committed pending]; assumption.
  - now apply (well_paired_steps rt (db st) ev t0 t1 [] [] H).
Qed.

Lemma same_committed_update_database rt env ev p :
  occurrences colon (Path_str p) <> 1%nat ->
  preserves same_committed (_update_database rt env ev p).
Proof.
  intros Hp st. unfold same_committed, _update_database, bindM, lift, execute,
    commit, set_db.
  destruct (timestamp (event_start ev)); cbn [fst]; [|reflexivity].
  destruct (timestamp (event_end ev)); cbn [fst]; [|reflexivity].
  destruct (insert_event_fault env); cbn [fst db log spawned event];
    [reflexivity|].
  destruct (unpack2 _) as [[remote path]|] eqn:E;
    cbn [fst db log spawned event]; [|reflexivity].
  exfalso. apply Hp. apply unpack2_ok in E.
  pose proof (length_split colon (Path_str p)) as Hl. rewrite E in Hl.
  cbn in Hl. lia.
Qed.

(** ** Invariants of a run *)

(** X1: a backups INSERT is never sent without the events INSERT of the
    same event just before it. Whatever the deliveries and whatever fails,
    if the statements of the connection (the committed ones, and these
    together with those of the open transaction) form groups of the events
    INSERT of an event followed or not by the backups INSERT built from the
    same event when [start] is entered, they still do in the state [start]
    has reached. *)
Theorem X1_backups_insert_follows_events_insert
  (rt : Runtime) (self : VideoUploader) (envs : list Delivery) (st : State) :
  well_paired rt (db st) ->
  well_paired rt (db (fst (start rt self envs st))).
Proof.
  apply (preserves_start (keeps_well_paired rt)) with (good := fun _ => True);
    unfold keeps_well_paired; cbn [db logged bound]; auto.
  intros env ev p _. apply well_paired_update_database.
Qed.

Lemma X1_run_with_faults :
  well_paired bare_runtime
    (db (fst (start bare_runtime uploader0
                [backup_insert_fails clip1 (blit "v1");
                 commit_fails clip2 (blit "v2");
                 delivered clip1 (blit "v1")]
                (initial empty_db)))).
Proof.
  apply X1_backups_insert_follows_events_insert.
  split; apply paired_nil.
Defined.

(** X2: [start] only appends: the log, the spawned processes and the
    committed statements of the state it has reached extend those of the
    state it was entered in; no committed statement is removed or changed. *)
Theorem X2_log_processes_and_rows_only_grow
  (rt : Runtime) (self : VideoUploader) (envs : list Delivery) (st : State) :
  grows st (fst (start rt self envs st)).
Proof.
  apply (preserves_start grows) with (good := fun _ => True).
  - apply grows_refl.
  - apply grows_trans.
  - intros s records. repeat split; first [apply prefix_refl|apply prefix_app].
  - intros s p. repeat split; first [apply prefix_refl|apply prefix_app].
  - intros s ev. repeat split; apply prefix_refl.
  - trivial.
  - intros env ev p _. apply grows_update_database.
Qed.

(** X3: a resolved destination contains exactly as many colons as the
    configured root: the sanitiser strips them from the templated part and
    the path normalisation neither adds nor drops one. Hence the unpacking
    of the split destination into two names succeeds exactly when the root
    contains one colon. *)
Theorem X3_destination_has_the_colons_of_the_root
  (rt : Runtime) (self : VideoUploader) (api : ProtectApiClient) (ev : Event)
  (p : Path) :
  _generate_file_path rt self api ev = Ok p ->
  occurrences colon (Path_str p) = occurrences colon (_rclone_destination self)
  /\ (is_ok (unpack2 (split colon (Path_str p))) = true
      <-> occurrences colon (_rclone_destination self) = 1%nat).
Proof.
  intros H. pose proof (destination_colons _ _ _ _ _ H) as Hc.
  split; [exact Hc|]. rewrite <- Hc.
  pose proof (length_split colon (Path_str p)) as Hl.
  destruct (split colon (Path_str p)) as [|a [|b [|c parts]]];
    cbn in Hl |- *; split; intros; try discriminate; try reflexivity; lia.
Qed.

Lemma X3_front_door_destination_unpacks :
  is_ok (unpack2 (split colon (lit "remote:backups/Front Door/motion")))
  = true.
Proof.
  exact (proj2 (proj2 (X3_destination_has_the_colons_of_the_root
                         bare_runtime uploader0 front_door clip1
                         (Path_of (lit "remote:backups/Front Door/motion"))
                         eq_refl)) eq_refl).
Defined.

(** X4: with a root that does not contain exactly one colon, no run of
    [start] ever commits a statement: every item is abandoned at the
    recording. *)
Theorem X4_root_without_single_colon_commits_nothing
  (rt : Runtime) (self : VideoUploader) (envs : list Delivery) (st : State) :
  occurrences colon (_rclone_destination self) <> 1%nat ->
  committed (db (fst (start rt self envs st))) = committed (db st).
Proof.
  intros Hroot.
  apply (preserves_start same_committed)
    with (good := fun p => occurrences colon (Path_str p) <> 1%nat);
    unfold same_committed; cbn [db logged bound]; auto.
  - intros a b c H1 H2. congruence.
  - intros api ev p H. now rewrite (destination_colons _ _ _ _ _ H).
  - intros env ev p Hp. now apply same_committed_update_database.
Qed.

Lemma X4_nested_root_commits_nothing :
  committed (db (fst (start bare_runtime uploader_nested
                        [delivered clip1 (blit "v1"); delivered clip2 (blit "v2")]
                        (initial empty_db))))
  = [].
Proof.
  apply (X4_root_without_single_colon_commits_nothing bare_runtime
           uploader_nested _ (initial empty_db)).
  intros H. vm_compute in H. discriminate H.
Defined.

(** ** Outcomes of the transfer and of the recording *)

Lemma logger_eq level msg st :
  logger level msg st = (logged st [Log level msg], Ok tt).
Proof. reflexivity. Qed.

Lemma upload_video_effects env video destination rclone_args st :
  db (fst (_upload_video env video destination rclone_args st)) = db st
  /\ event (fst (_upload_video env video destination rclone_args st)) = event st
  /\ (forall outcome,
        rclone env = Ok outcome ->
        spawned (fst (_upload_video env video destination rclone_args st))
        = spawned st ++ [(command rclone_args destination, video)])
  /\ (forall e,
        rclone env = Error e ->
        _upload_video env video destination rclone_args st = (st, Error e))
  /\ (snd (_upload_video env video destination rclone_args st) = Ok tt ->
      exists stdout stderr out err,
        rclone env = Ok (stdout, stderr, 0%Z)
        /\ decode stdout = Ok out
        /\ decode stderr = Ok err
        /\ log (fst (_upload_video env video destination rclone_args st))
           = log st ++ [Log EXTRA_DEBUG (lit "stdout:" ++ [newline] ++ out);
                        Log EXTRA_DEBUG (lit "stderr:" ++ [newline] ++ err)]).
Proof.
  unfold _upload_video, command, bindM, communicate, lift, raise, logger.
  destruct (rclone env) as [[[stdout stderr] rc]|e];
    cbn [fst snd db log spawned event];
    [|repeat split; intros; congruence].
  destruct (Z.eqb_spec rc 0) as [->|Hrc];
    destruct (decode stdout) as [out|e1] eqn:Hout;
    cbn [fst snd db log spawned event];
    try (repeat split; intros; congruence);
    destruct (decode stderr) as [err|e2] eqn:Herr;
    cbn [fst snd db log spawned event];
    try (repeat split; intros; congruence).
  repeat split; try (intros; congruence).
  intros _. exists stdout, stderr, out, err.
  repeat split; try assumption. now rewrite <- app_assoc.
Qed.

Lemma update_database_outcomes rt env ev p st :
  log (fst (_update_database rt env ev p st)) = log st
  /\ spawned (fst (_update_database rt env ev p st)) = spawned st
  /\ event (fst (_update_database rt env ev p st)) = event st
  /\ match snd (_update_database rt env ev p st) with
     | Ok _ =>
         exists t0 t1 remote path,
           event_start ev = Some t0 /\ event_end ev = Some t1
           /\ split colon (Path_str p) = [remote; path]
           /\ db (fst (_update_database rt env ev p st))
              = {| committed := committed (db st) ++ pending (db st)
                                ++ [event_row rt ev t0 t1;
                                    backup_row ev remote path];
                   pending := [] |}
     | Error _ =>
         committed (db (fst (_update_database rt env ev p st)))
         = committed (db st)
         /\ prefix (pending (db st))
                   (pending (db (fst (_update_database rt env ev p st))))
     end.
Proof.
  unfold _update_database, bindM, lift, execute, commit, set_db.
  destruct (event_start ev) as [t0|]; cbn [timestamp fst snd];
    [|repeat split; apply prefix_refl].
  destruct (event_end ev) as [t1|]; cbn [timestamp fst snd];
    [|repeat split; apply prefix_refl].
  destruct (insert_event_fault env); cbn [fst snd db log spawned event];
    [repeat split; apply prefix_refl|].
  destruct (unpack2 _) as [[remote path]|] eqn:E;
    cbn [fst snd db log spawned event committed pending];
    [|repeat split; apply prefix_app].
  apply unpack2_ok in E.
  destruct (insert_backup_fault env);
    cbn [fst snd db log spawned event committed pending];
    [repeat split; apply prefix_app|].
  destruct (commit_fault env);
    cbn [fst snd db log spawned event committed pending].
  - repeat split. rewrite <- app_assoc. apply prefix_app.
  - repeat split. exists t0, t1, remote, path. repeat split; [exact E|].
    unfold event_row, backup_row. now rewrite <- app_assoc.
Qed.

(** X5: [_upload_video] leaves the database connection alone. When
    spawning succeeds it spawns exactly one process, with the command line
    built from the arguments and the destination and with the video on its
    standard input; when spawning raises, no process is recorded, the state
    is unchanged and the exception is raised to the caller. It returns
    normally only if the process ended with return code 0 and both captured
    outputs decode. *)
Theorem X5_upload_video_spawns_once_and_succeeds_only_on_zero
  (env : Delivery) (video : bytes) (destination : Path) (rclone_args : str)
  (st : State) :
  db (fst (_upload_video env video destination rclone_args st)) = db st
  /\ (forall outcome,
        rclone env = Ok outcome ->
        spawned (fst (_upload_video env video destination rclone_args st))
        = spawned st ++ [(command rclone_args destination, video)])
  /\ (forall e,
        rclone env = Error e ->
        _upload_video env video destination rclone_args st = (st, Error e))
  /\ (snd (_upload_video env video destination rclone_args st) = Ok tt ->
      exists stdout stderr out err,
        rclone env = Ok (stdout, stderr, 0%Z)
        /\ decode stdout = Ok out
        /\ decode stderr = Ok err).
Proof.
  destruct (upload_video_effects env video destination rclone_args st)
    as (Hdb & _ & Hsp & Hno & Hok).
  repeat split; [exact Hdb|exact Hsp|exact Hno|].
  intros H. destruct (Hok H) as (stdout & stderr & out & err & H1 & H2 & H3 & _).
  eauto 10.
Qed.

Lemma X5_successful_upload_had_return_code_zero :
  (exists stdout stderr out err,
     rclone (delivered clip1 (blit "v1")) = Ok (stdout, stderr, 0%Z)
     /\ decode stdout = Ok out
     /\ decode stderr = Ok err)
  /\ _upload_video (spawn_fails clip1 (blit "v1")) (blit "v1")
       (Path_of (lit "remote:backups/Front Door/motion")) []
       (initial empty_db)
     = (initial empty_db, Error (OtherException (lit "rclone: not found"))).
Proof.
  split.
  - exact (proj2 (proj2 (proj2
             (X5_upload_video_spawns_once_and_succeeds_only_on_zero
                (delivered clip1 (blit "v1")) (blit "v1")
                (Path_of (lit "remote:backups/Front Door/motion"))
                [] (initial empty_db)))) eq_refl).
  - exact (proj1 (proj2 (proj2
             (X5_upload_video_spawns_once_and_succeeds_only_on_zero
                (spawn_fails clip1 (blit "v1")) (blit "v1")
                (Path_of (lit "remote:backups/Front Door/motion"))
                [] (initial empty_db)))) _ eq_refl).
Defined.

(** X6: [_update_database] commits both statements or commits nothing.
    When it returns, the committed statements have grown by those of the
    open transaction followed by the events INSERT and the backups INSERT of
    this event, as the texts the code builds, nothing is left pending, and
    the remote and the path interpolated into the backups INSERT, neither of
    which contains a colon, give back the destination when joined by a
    colon. When it raises, the committed statements are unchanged. *)
Theorem X6_recording_commits_both_rows_or_nothing
  (rt : Runtime) (env : Delivery) (ev : Event) (p : Path) (st : State) :
  match snd (_update_database rt env ev p st) with
  | Ok _ =>
      exists t0 t1 remote path,
        event_start ev = Some t0 /\ event_end ev = Some t1
        /\ Path_str p = remote ++ [colon] ++ path
        /\ ~ In colon remote /\ ~ In colon path
        /\ db (fst (_update_database rt env ev p st))
           = {| committed := committed (db st) ++ pending (db st)
                             ++ [event_row rt ev t0 t1;
                                 backup_row ev remote path];
                pending := [] |}
  | Error _ =>
      committed (db (fst (_update_database rt env ev p st)))
      = committed (db st)
  end.
Proof.
  destruct (update_database_outcomes rt env ev p st) as (_ & _ & _ & H).
  destruct (snd (_update_database rt env ev p st)).
  - destruct H as (t0 & t1 & remote & path & H0 & H1 & Hs & Hdb).
    exists t0, t1, remote, path. repeat split; try assumption.
    + rewrite <- (join_split colon (Path_str p)), Hs. reflexivity.
    + apply (split_free colon (Path_str p)). rewrite Hs. now left.
    + apply (split_free colon (Path_str p)). rewrite Hs. right. now left.
  - exact (proj1 H).
Qed.

Lemma logger_ok_inv level msg st st1 (u : unit) :
  logger level msg st = (st1, Ok u) -> st1 = logged st [Log level msg].
Proof. unfold logger, logged. now intros [= <-]. Qed.

(** X7: when the statements of the [try] block after the assignment run to
    their end, the destination was resolved, rclone was spawned once on it
    with the video and ended with return code 0, and the events INSERT and
    the backups INSERT of this event, as the texts the code builds, were
    committed together. *)
Theorem X7_processed_item_is_uploaded_and_recorded
  (rt : Runtime) (self : VideoUploader) (env : Delivery) (ev : Event)
  (video : bytes) (st st1 : State) :
  process rt self env ev video st = (st1, Ok tt) ->
  exists destination stdout stderr t0 t1 remote path,
    _generate_file_path rt self (protect env) ev = Ok destination
    /\ rclone env = Ok (stdout, stderr, 0%Z)
    /\ spawned st1
       = spawned st ++ [(command (_rclone_args self) destination, video)]
    /\ Path_str destination = remote ++ [colon] ++ path
    /\ event_start ev = Some t0 /\ event_end ev = Some t1
    /\ db st1
       = {| committed := committed (db st) ++ pending (db st)
                         ++ [event_row rt ev t0 t1;
                             backup_row ev remote path];
            pending := [] |}.
Proof.
  intros H. unfold process in H.
  apply bindM_ok_inv in H. destruct H as (u1 & s1 & H1 & H).
  apply logger_ok_inv in H1. subst s1.
  apply bindM_ok_inv in H. destruct H as (u2 & s2 & H2 & H).
  apply logger_ok_inv in H2. subst s2.
  apply bindM_ok_inv in H. destruct H as (destination & s3 & H3 & H).
  unfold lift in H3. injection H3 as <- Hgen.
  apply bindM_ok_inv in H. destruct H as (u4 & s4 & H4 & H).
  apply logger_ok_inv in H4. subst s4.
  apply bindM_ok_inv in H. destruct H as ([] & s5 & H5 & H).
  apply bindM_ok_inv in H. destruct H as ([] & s6 & H6 & H).
  apply logger_ok_inv in H. subst st1.
  match type of H5 with
  | _upload_video _ _ _ _ ?s = _ =>
      destruct (upload_video_effects env video destination (_rclone_args self) s)
        as (Udb & _ & Usp & _ & Uok)
  end.
  rewrite H5 in Udb, Usp, Uok. cbn [fst snd] in Udb, Usp, Uok.
  destruct (Uok eq_refl) as (stdout & stderr & out & err & Hproc & _).
  specialize (Usp _ Hproc).
  destruct (update_database_outcomes rt env ev destination s5)
    as (_ & Rsp & _ & Hrec).
  rewrite H6 in Rsp, Hrec. cbn [fst snd] in Rsp, Hrec.
  destruct Hrec as (t0 & t1 & remote & path & Ht0 & Ht1 & Hs & Hdb).
  exists destination, stdout, stderr, t0, t1, remote, path.
  repeat split; try assumption.
  - cbn [logged spawned]. now rewrite Rsp, Usp.
  - rewrite <- (join_split colon (Path_str destination)), Hs. reflexivity.
  - cbn [logged db]. rewrite Hdb, Udb. reflexivity.
Qed.

Lemma upload_video_ok env video destination rclone_args st
  stdout stderr out err :
  rclone env = Ok (stdout, stderr, 0%Z) ->
  decode stdout = Ok out ->
  decode stderr = Ok err ->
  _upload_video env video destination rclone_args st
  = (mkState (db st)
       (log st ++ [Log EXTRA_DEBUG (lit "stdout:" ++ [newline] ++ out);
                   Log EXTRA_DEBUG (lit "stderr:" ++ [newline] ++ err)])
       (spawned st ++ [(command rclone_args destination, video)])
       (event st), Ok tt).
Proof.
  intros Hproc Hout Herr.
  unfold _upload_video, command, bindM, communicate, lift, logger.
  rewrite Hproc. cbn [fst snd db log spawned event Z.eqb].
  rewrite Hout, Herr. cbn [fst snd db log spawned event].
  now rewrite <- app_assoc.
Qed.

Lemma split_two sep s :
  occurrences sep s = 1%nat -> exists a b, split sep s = [a; b].
Proof.
  intros H. pose proof (length_split sep s) as Hl. rewrite H in Hl.
  destruct (split sep s) as [|a [|b [|c parts]]]; try discriminate Hl.
  eauto.
Qed.

Lemma X7_second_clip_processed :
  exists destination remote path,
    _generate_file_path bare_runtime uploader0 front_door clip2
    = Ok destination
    /\ Path_str destination = remote ++ [colon] ++ path.
Proof.
  destruct (X7_processed_item_is_uploaded_and_recorded bare_runtime uploader0
              (delivered clip2 (blit "v2")) clip2 (blit "v2")
              (initial empty_db)
              (fst (process bare_runtime uploader0
                      (delivered clip2 (blit "v2")) clip2 (blit "v2")
                      (initial empty_db))))
    as (destination & stdout & stderr & t0 & t1 & remote & path
        & Hgen & _ & _ & Hpath & _).
  - vm_compute. reflexivity.
  - exists destination, remote, path. split; [exact Hgen|exact Hpath].
Defined.

(** X8: the successful iteration. When the queue delivers an item, the
    destination resolves under a root with exactly one colon, rclone ends
    with return code 0 and decodable output, and the database raises
    nothing, the iteration commits the events INSERT and the backups INSERT
    of the item, as the texts the code builds, leaves nothing pending, spawns the one process and logs the six
    records of a completed upload, in this order. *)
Theorem X8_successful_iteration
  (rt : Runtime) (self : VideoUploader) (env : Delivery) (st : State)
  (ev : Event) (video : bytes) (destination : Path)
  (stdout stderr : bytes) (out err : str) :
  dequeued env = Ok (ev, video) ->
  _generate_file_path rt self (protect env) ev = Ok destination ->
  occurrences colon (_rclone_destination self) = 1%nat ->
  rclone env = Ok (stdout, stderr, 0%Z) ->
  decode stdout = Ok out ->
  decode stderr = Ok err ->
  insert_event_fault env = None ->
  insert_backup_fault env = None ->
  commit_fault env = None ->
  exists t0 t1 remote path,
    event_start ev = Some t0 /\ event_end ev = Some t1
    /\ Path_str destination = remote ++ [colon] ++ path
    /\ iteration rt self env st
       = (mkState
            {| committed := committed (db st) ++ pending (db st)
                            ++ [event_row rt ev t0 t1;
                                backup_row ev remote path];
               pending := [] |}
            (log st ++
             [Log INFO (lit "Uploading event: " ++ event_id ev);
              Log DEBUG (lit " Remaining Upload Queue: "
                         ++ str_of_N (qsize_files env));
              Log DEBUG (lit " Destination: " ++ Path_str destination);
              Log EXTRA_DEBUG (lit "stdout:" ++ [newline] ++ out);
              Log EXTRA_DEBUG (lit "stderr:" ++ [newline] ++ err);
              Log DEBUG (lit "Uploaded")])
            (spawned st
             ++ [(command (_rclone_args self) destination, video)])
            (Some ev), Ok tt).
Proof.
  intros Hget Hgen Hroot Hproc Hout Herr F1 F2 F3.
  destruct (generate_file_path_inv _ _ _ _ _ Hgen)
    as (camera_id & t0 & t1 & name & fp & _ & Ht0 & Ht1 & _).
  rewrite <- (destination_colons _ _ _ _ _ Hgen) in Hroot.
  destruct (split_two _ _ Hroot) as (remote & path & Hs).
  exists t0, t1, remote, path. repeat split; try assumption.
  - rewrite <- (join_split colon (Path_str destination)), Hs. reflexivity.
  - apply (iteration_done rt self env st ev video); [exact Hget|].
    unfold process, bindM at 1 2 3 4, logger, lift.
    cbn [fst snd db log spawned event]. rewrite Hgen.
    unfold bindM at 1.
    rewrite (upload_video_ok _ _ _ _ _ _ _ _ _ Hproc Hout Herr).
    unfold bindM.
    rewrite (update_database_commits_both _ _ _ _ _ _ _ _ _ Ht0 Ht1 Hs F1 F2
               F3).
    unfold bound. cbn [fst snd db log spawned event committed pending].
    rewrite <- !app_assoc. reflexivity.
Qed.

Lemma X8_second_clip_recorded :
  exists t0 t1 remote path,
    db (fst (iteration bare_runtime uploader0 (delivered clip2 (blit "v2"))
               (initial empty_db)))
    = {| committed := [event_row bare_runtime clip2 t0 t1;
                       backup_row clip2 remote path];
         pending := [] |}.
Proof.
  destruct (X8_successful_iteration bare_runtime uploader0
              (delivered clip2 (blit "v2")) (initial empty_db) clip2
              (blit "v2")
              (Path_of (lit "remote:backups/Front Door/motion (person vehicle)"))
              (blit "") (blit "") [] [])
    as (t0 & t1 & remote & path & _ & _ & _ & Hit);
    try (vm_compute; reflexivity).
  exists t0, t1, remote, path. rewrite Hit. reflexivity.
Defined.

(** X9: when the destination cannot be resolved, whatever the reason, the
    item is abandoned before anything is spawned or written: the iteration
    only logs, ending with the warning that names the event and the
    resolver's exception. *)
Theorem X9_unresolved_item_is_abandoned_untouched
  (rt : Runtime) (self : VideoUploader) (env : Delivery) (st : State)
  (ev : Event) (video : bytes) (e : exn) :
  dequeued env = Ok (ev, video) ->
  _generate_file_path rt self (protect env) ev = Error e ->
  iteration rt self env st
  = (mkState (db st)
       (log st ++
        [Log INFO (lit "Uploading event: " ++ event_id ev);
         Log DEBUG (lit " Remaining Upload Queue: "
                    ++ str_of_N (qsize_files env));
         Log WARNING (abandoning (event_id ev));
         LogException e])
       (spawned st) (Some ev), Ok tt).
Proof.
  intros Hget Hgen.
  rewrite (iteration_caught _ _ _ _ _ _ _ _ Hget
             (process_unresolved rt self env ev video (bound ev st) e Hgen)).
  unfold logged, bound. cbn [db log spawned event].
  now rewrite <- app_assoc.
Qed.

Lemma X9_ongoing_event_abandoned :
  iteration bare_runtime uploader0 (delivered ongoing (blit "v3"))
    (initial empty_db)
  = (mkState empty_db
       [Log INFO (lit "Uploading event: e3");
        Log DEBUG (lit " Remaining Upload Queue: 0");
        Log WARNING (abandoning (lit "e3"));
        LogException AssertionError]
       [] (Some ongoing), Ok tt).
Proof.
  exact (X9_unresolved_item_is_abandoned_untouched bare_runtime uploader0
           (delivered ongoing (blit "v3")) (initial empty_db) ongoing
           (blit "v3") AssertionError eq_refl eq_refl).
Defined.

(** X10: the resolver checks the event first, then asks for the camera
    name, and only then reads the template. An event whose camera
    identifier, start or end fails its [isinstance] assertion gives
    [AssertionError] whatever the client and the template; otherwise a
    failed camera lookup is raised as it is, also when the template does not
    use [camera_name]. *)
Theorem X10_resolver_checks_event_then_camera_before_template
  (rt : Runtime) (self : VideoUploader) (api : ProtectApiClient) (ev : Event) :
  (event_camera_id ev = None \/ event_start ev = None \/ event_end ev = None ->
   _generate_file_path rt self api ev = Error AssertionError)
  /\ (forall camera_id t0 t1 e,
        event_camera_id ev = Some camera_id ->
        event_start ev = Some t0 ->
        event_end ev = Some t1 ->
        get_camera_name api camera_id = Error e ->
        _generate_file_path rt self api ev = Error e).
Proof.
  unfold _generate_file_path. split.
  - intros [H|[H|H]]; rewrite H;
      destruct (event_camera_id ev); try reflexivity;
      destruct (event_start ev); reflexivity.
  - intros camera_id t0 t1 e -> -> -> H.
    cbn [assert_isinstance bind]. now rewrite H.
Qed.

Lemma X10_unknown_camera_without_camera_name_field :
  _generate_file_path bare_runtime
    {| _rclone_destination := lit "remote:backups"; _rclone_args := [];
       _file_structure_format := lit "{detection_type}" |}
    (fun _ => Error (OtherException (lit "camera not found"))) clip1
  = Error (OtherException (lit "camera not found")).
Proof.
  exact (proj2 (X10_resolver_checks_event_then_camera_before_template
                  bare_runtime _ _ clip1) _ _ _ _ eq_refl eq_refl eq_refl
           eq_refl).
Defined.

(** ** Destinations, templates and the end of the loop *)

Lemma markup_text acc t :
  Forall plain t -> markup (MText acc) t = mfinish (MText (acc ++ t)).
Proof.
  intros H. revert acc. induction H as [|c t [Hl Hr] _ IH]; intros acc.
  - now rewrite app_nil_r.
  - cbn [markup mstep].
    destruct (N.eqb_spec c lbrace); [contradiction|].
    destruct (N.eqb_spec c rbrace); [contradiction|].
    cbn [orb app]. rewrite IH, <- app_assoc. reflexivity.
Qed.

Lemma format_text rt t kw : Forall plain t -> format rt t kw = Ok t.
Proof.
  intros H. unfold format. cbn [build_string].
  rewrite (markup_text [] t H). cbn [app].
  destruct t as [|c t]; [reflexivity|].
  cbn [mfinish do_markup bind]. now rewrite app_nil_r.
Qed.

Lemma loop_bound_continues rt self envs :
  forall st previous,
    event st = Some previous -> snd (loop rt self envs st) = Ok tt.
Proof.
  induction envs as [|env envs IH]; intros st previous Hev; [reflexivity|].
  cbn [loop]. unfold bindM.
  assert (H : snd (iteration rt self env st) = Ok tt
              /\ exists ev, event (fst (iteration rt self env st)) = Some ev).
  { destruct (dequeued env) as [[ev video]|e0] eqn:Hget.
    - pose proof (keeps_event_process rt self env ev video (bound ev st)) as Hk.
      destruct (process rt self env ev video (bound ev st)) as [st1 [[]|e]] eqn:Hp.
      + rewrite (iteration_done _ _ _ _ _ _ _ Hget Hp). cbn [fst snd].
        split; [reflexivity|]. exists ev. exact Hk.
      + rewrite (iteration_caught _ _ _ _ _ _ _ _ Hget Hp). cbn [fst snd].
        split; [reflexivity|]. exists ev. exact Hk.
    - unfold iteration, try_block, bindM, get. rewrite Hget.
      unfold handler, bindM, local_event, logger, logger_exception.
      rewrite Hev. cbn [fst snd event]. eauto. }
  destruct (iteration rt self env st) as [st' r]. cbn [fst snd] in H.
  destruct H as [-> [ev Hev']]. exact (IH st' ev Hev').
Qed.

(** X11: every character of a resolved destination is a character of the
    configured root or a character the sanitiser keeps. In particular NUL,
    newline, the two quotes, the dollar sign, the colon, the semicolon, the
    backslash, the backquote and the vertical bar occur in the destination
    only if they occur in the root. *)
Theorem X11_destination_characters
  (rt : Runtime) (self : VideoUploader) (api : ProtectApiClient) (ev : Event)
  (p : Path) :
  _generate_file_path rt self api ev = Ok p ->
  (forall c, In c (Path_str p) ->
             In c (_rclone_destination self) \/ valid_char rt c = true)
  /\ (forall c, In c [0; 10; 34; 36; 39; 58; 59; 92; 96; 124] ->
                In c (Path_str p) -> In c (_rclone_destination self)).
Proof.
  intros H. apply generate_file_path_inv in H.
  destruct H as (camera_id & t0 & t1 & name & fp & _ & _ & _ & _ & _ & ->).
  assert (Hall : forall c,
             In c (Path_str (Path_of (_rclone_destination self ++ lit "/"
                                      ++ sanitize rt fp))) ->
             In c (_rclone_destination self) \/ valid_char rt c = true).
  { intros c Hc. apply in_Path in Hc. destruct Hc as [->|[->|Hc]].
    - now right.
    - now right.
    - apply in_app_or in Hc. destruct Hc as [Hc|Hc]; [now left|].
      apply in_app_or in Hc. destruct Hc as [[<-|[]]|Hc]; [now right|].
      right. now apply sanitize_valid in Hc. }
  split; [exact Hall|].
  intros c Hlisted Hc. destruct (Hall c Hc) as [Hroot|Hvalid]; [exact Hroot|].
  now rewrite (valid_char_listed rt c Hlisted) in Hvalid.
Qed.

Lemma X11_front_door_destination_characters :
  (forall c, In c (lit "remote:backups/Front Door/motion") ->
             In c (lit "remote:backups") \/ valid_char bare_runtime c = true)
  /\ (forall c, In c [0; 10; 34; 36; 39; 58; 59; 92; 96; 124] ->
                In c (lit "remote:backups/Front Door/motion") ->
                In c (lit "remote:backups")).
Proof.
  exact (X11_destination_characters bare_runtime uploader0 front_door clip1
           _ eq_refl).
Defined.

(** X12: a template without braces has no field: the destination is the
    root joined with the sanitised template, the same for every event that
    passes the checks. *)
Theorem X12_template_without_fields_ignores_the_event
  (rt : Runtime) (self : VideoUploader) (api : ProtectApiClient) (ev : Event)
  (camera_id name : str) (t0 t1 : datetime) :
  Forall plain (_file_structure_format self) ->
  event_camera_id ev = Some camera_id ->
  event_start ev = Some t0 ->
  event_end ev = Some t1 ->
  get_camera_name api camera_id = Ok name ->
  _generate_file_path rt self api ev
  = Ok (Path_of (_rclone_destination self ++ lit "/"
                 ++ sanitize rt (_file_structure_format self))).
Proof.
  intros Hplain Hc H0 H1 Hname. unfold _generate_file_path.
  rewrite Hc, H0, H1. cbn [assert_isinstance bind]. rewrite Hname.
  cbn [bind]. now rewrite (format_text rt _ _ Hplain).
Qed.

Lemma X12_fixed_template :
  _generate_file_path bare_runtime
    {| _rclone_destination := lit "remote:backups"; _rclone_args := [];
       _file_structure_format := lit "clips/latest.mp4" |}
    front_door clip1
  = Ok (Path_of (lit "remote:backups/clips/latest.mp4")).
Proof.
  refine (X12_template_without_fields_ignores_the_event bare_runtime
            {| _rclone_destination := lit "remote:backups"; _rclone_args := [];
               _file_structure_format := lit "clips/latest.mp4" |}
            front_door clip1 (lit "cam1") (lit "Front Door") _ _
            _ eq_refl eq_refl eq_refl eq_refl).
  repeat constructor; discriminate.
Defined.

(** X13: once an item has been dequeued, [start] cannot end any more: with
    the local [event] bound, the loop handles every exception. From its
    initial state [start] ends with an exception only if the very first
    [get] raises, and the exception is then the [UnboundLocalError] of the
    handler. *)
Theorem X13_start_ends_only_when_first_get_raises
  (rt : Runtime) (self : VideoUploader) (envs : list Delivery) :
  (forall st previous,
     event st = Some previous -> snd (loop rt self envs st) = Ok tt)
  /\ (forall c e,
        snd (start rt self envs (initial c)) = Error e ->
        e = UnboundLocalError (lit "event")
        /\ exists env rest e0, envs = env :: rest /\ dequeued env = Error e0).
Proof.
  split; [apply loop_bound_continues|].
  intros c e. unfold start.
  rewrite (bindM_ok _ _ _ _ _ (logger_eq INFO (lit "Starting Uploader") _)).
  set (st0 := logged (initial c) [Log INFO (lit "Starting Uploader")]).
  destruct envs as [|env rest]; [discriminate|].
  cbn [loop]. unfold bindM.
  destruct (dequeued env) as [[ev video]|e0] eqn:Hget.
  - pose proof (keeps_event_process rt self env ev video (bound ev st0)) as Hk.
    destruct (process rt self env ev video (bound ev st0)) as [st1 [[]|e1]] eqn:Hp;
      cbn [fst bound event] in Hk.
    + rewrite (iteration_done _ _ _ _ _ _ _ Hget Hp).
      now rewrite (loop_bound_continues rt self rest st1 ev Hk).
    + rewrite (iteration_caught _ _ _ _ _ _ _ _ Hget Hp).
      now rewrite (loop_bound_continues rt self rest (logged st1 _) ev Hk).
  - unfold iteration, try_block, bindM, get. rewrite Hget.
    unfold handler, bindM, local_event. cbn [event fst snd st0 logged initial].
    intros [= <-]. split; [reflexivity|]. eauto.
Qed.

Lemma X13_get_raises_first :
  UnboundLocalError (lit "event") = UnboundLocalError (lit "event")
  /\ exists env rest e0,
       [get_raises; delivered clip1 (blit "v1")] = env :: rest
       /\ dequeued env = Error e0.
Proof.
  exact (proj2 (X13_start_ends_only_when_first_get_raises bare_runtime
                  uploader0 [get_raises; delivered clip1 (blit "v1")])
           empty_db _ eq_refl).
Defined.

(** X15: sanitising is idempotent, works character by character (it
    distributes over concatenation and never lengthens a string), and leaves
    a string unchanged exactly when all its characters are kept ones. *)
Theorem X15_sanitize_is_idempotent_and_local
  (rt : Runtime) (a b : str) :
  sanitize rt (sanitize rt a) = sanitize rt a
  /\ sanitize rt (a ++ b) = sanitize rt a ++ sanitize rt b
  /\ (List.length (sanitize rt a) <= List.length a)%nat
  /\ (sanitize rt a = a <-> Forall (fun c => valid_char rt c = true) a).
Proof.
  unfold sanitize. repeat split.
  - induction a as [|c a IH]; [reflexivity|]. cbn [filter].
    destruct (valid_char rt c) eqn:E; [|exact IH].
    cbn [filter]. now rewrite E, IH.
  - apply filter_app.
  - apply filter_length_le.
  - intros H. rewrite <- H. apply Forall_forall. intros c Hc.
    now apply filter_In in Hc.
  - intros H. induction H as [|c a Hc _ IH]; [reflexivity|].
    cbn [filter]. now rewrite Hc, IH.
Qed.

Lemma utf8_decode_ascii bs :
  Forall (fun b => b < 128) bs -> utf8_decode bs = Some bs.
Proof.
  induction 1 as [|b bs Hb _ IH]; [reflexivity|].
  cbn [utf8_decode]. apply N.ltb_lt in Hb. rewrite Hb, IH. reflexivity.
Qed.

Lemma decode_ascii (b : bytes) :
  Forall (fun x => Byte.to_N x < 128) b -> decode b = Ok (map Byte.to_N b).
Proof.
  intros H. unfold decode. rewrite utf8_decode_ascii; [reflexivity|].
  induction H; constructor; assumption.
Qed.

(** X16: when the captured outputs are ASCII, no decoding error is
    possible: return code 0 returns normally, and any other return code
    raises the [SubprocessException] carrying the two outputs byte for byte
    and the return code. *)
Theorem X16_ascii_output_is_carried_byte_for_byte
  (env : Delivery) (video : bytes) (destination : Path) (rclone_args : str)
  (st : State) (stdout stderr : bytes) (returncode : Z) :
  rclone env = Ok (stdout, stderr, returncode) ->
  Forall (fun b => Byte.to_N b < 128) stdout ->
  Forall (fun b => Byte.to_N b < 128) stderr ->
  snd (_upload_video env video destination rclone_args st)
  = if (returncode =? 0)%Z then Ok tt
    else Error (SubprocessException (map Byte.to_N stdout)
                  (map Byte.to_N stderr) returncode).
Proof.
  intros Hproc Hout Herr.
  unfold _upload_video, bindM, communicate, lift, raise, logger.
  rewrite Hproc. cbn iota beta.
  rewrite (decode_ascii _ Hout), (decode_ascii _ Herr).
  now destruct (returncode =? 0)%Z.
Qed.

Lemma X16_disk_full_bytes :
  snd (_upload_video (transfer_fails clip1 (blit "v")) (blit "v")
         (Path_of (lit "remote:backups/Front Door/motion")) []
         (initial empty_db))
  = Error (SubprocessException [] (map Byte.to_N (blit "disk full")) 1).
Proof.
  refine (X16_ascii_output_is_carried_byte_for_byte
            (transfer_fails clip1 (blit "v")) _ _ _ _
            (blit "") (blit "disk full") 1%Z eq_refl _ _);
    repeat constructor.
Defined.
